(** * Unicode steganography tool: the codecs, the injection-point resolver
      and the encode / decode orchestration

    A shallow embedding of [steg/algorithms.py], [steg/injection.py] and
    [steg/core.py], and of [steg/analysis.py] at the end.

    - A Python [str] is a sequence of code points; it is modelled as a
      [list N], one number per character, so [ord] is the identity and
      [len] is [length].
    - Python integers that may be negative (a word number, a character
      position, the result of [str.find]) are [Z].
    - Every failure of the code is a [ValueError]; the constructors of
      [ValueError] stand for the distinct messages. *)

From Stdlib Require Import String Ascii.
From Stdlib Require Import List NArith ZArith Lia Bool Arith.
Import ListNotations.

Local Open Scope N_scope.

(** ** Python strings *)

Definition char := N.
Definition str := list char.

(** A string literal of the source, character by character. *)
Definition py (s : string) : str := map N_of_ascii (list_ascii_of_string s).

Definition str_eqb (a b : str) : bool :=
  if list_eq_dec N.eq_dec a b then true else false.

Lemma str_eqb_eq (a b : str) : str_eqb a b = true <-> a = b.
Proof.
  unfold str_eqb. destruct (list_eq_dec N.eq_dec a b); split; congruence.
Qed.

Lemma str_eqb_refl (a : str) : str_eqb a a = true.
Proof. now apply str_eqb_eq. Qed.

Lemma str_eqb_neq (a b : str) : str_eqb a b = false <-> a <> b.
Proof.
  unfold str_eqb. destruct (list_eq_dec N.eq_dec a b); split; congruence.
Qed.

(** [str.isspace] on one character: the code points CPython classifies as
    whitespace (bidirectional type WS, B or S, or category Zs). *)
Definition isspace (c : char) : bool :=
  ((0x09 <=? c) && (c <=? 0x0D)) || ((0x1C <=? c) && (c <=? 0x20))
  || (c =? 0x85) || (c =? 0xA0) || (c =? 0x1680)
  || ((0x2000 <=? c) && (c <=? 0x200A))
  || (c =? 0x2028) || (c =? 0x2029) || (c =? 0x202F) || (c =? 0x205F)
  || (c =? 0x3000).

(** [chr(n)]: a [ValueError] ([None]) outside the Unicode range. *)
Definition chr (n : N) : option char :=
  if n <=? 0x10FFFF then Some n else None.

(** [s[i:j]] for [0 <= i <= j]; a bound past the end stops at the end. *)
Definition slice (s : str) (i j : nat) : str := firstn (j - i) (skipn i s).

(** Python clamps a slice bound: a negative bound counts from the end. *)
Definition clamp_index (len : nat) (i : Z) : nat :=
  if (i <? 0)%Z then Z.to_nat (Z.of_nat len + i) else Nat.min (Z.to_nat i) len.

(** [s[:i]] and [s[i:]]. *)
Definition slice_to (s : str) (i : Z) : str := firstn (clamp_index (length s) i) s.
Definition slice_from (s : str) (i : Z) : str := skipn (clamp_index (length s) i) s.

(** [range(start, stop, step)] for a positive step. *)
Definition py_range (start stop step : nat) : list nat :=
  map (fun k => (start + k * step)%nat)
      (seq 0 ((stop - start + (step - 1)) / step)%nat).

(** A [dict] with character keys, in insertion order, and [dict.get]. *)
Definition dict := list (char * char).

Fixpoint dict_lookup (d : dict) (k : char) : option char :=
  match d with
  | [] => None
  | (k', v) :: d' => if k =? k' then Some v else dict_lookup d' k
  end.

(** [d.get(k, '')]: the value as a one-character string, or the empty string. *)
Definition dict_get (d : dict) (k : char) : str :=
  match dict_lookup d k with
  | Some v => [v]
  | None => []
  end.

(** ** algorithms.py *)

Definition ZERO_WIDTH_MAP : dict :=
  [ (48, 0x200b)    (* '0': Zero-Width Space *)
  ; (49, 0x200c) ]. (* '1': Zero-Width Non-Joiner *)

(** [{val: key for key, val in ZERO_WIDTH_MAP.items()}] *)
Definition ZERO_WIDTH_DECODE : dict :=
  map (fun kv => (snd kv, fst kv)) ZERO_WIDTH_MAP.

Definition TAG_BASE : N := 0xE0000.

(** The binary digits of a positive number, most significant first. *)
Fixpoint pos_bin (p : positive) : str :=
  match p with
  | xH => [49]
  | xO q => pos_bin q ++ [48]
  | xI q => pos_bin q ++ [49]
  end.

Definition bin (n : N) : str :=
  match n with
  | N0 => [48]
  | Npos p => pos_bin p
  end.

(** [format(n, '08b')]: binary digits, zero-padded on the left to a
    MINIMUM width of eight; a longer rendering is kept whole. *)
Definition format_08b (n : N) : str :=
  repeat 48 (8 - length (bin n)) ++ bin n.

Definition encode_zero_width (secret_message : str) : str :=
  let binary_secret := flat_map (fun c => format_08b c) secret_message in
  flat_map (fun bit => dict_get ZERO_WIDTH_MAP bit) binary_secret.

Definition encode_tag (secret_message : str) : str :=
  flat_map (fun c => if c <=? 0x7F then [TAG_BASE + c] else []) secret_message.

(** [int(byte, 2)] on a string of binary digits; any other character is a
    [ValueError].  The decoder only ever passes strings over '0' and '1'. *)
Fixpoint int_base2_from (acc : N) (s : str) : option N :=
  match s with
  | [] => Some acc
  | c :: s' =>
      if c =? 48 then int_base2_from (2 * acc) s'
      else if c =? 49 then int_base2_from (2 * acc + 1) s'
      else None
  end.

Definition int_base2 (s : str) : option N :=
  match s with
  | [] => None
  | _ => int_base2_from 0 s
  end.

(** The body of the decoding loop for one index [i]. *)
Definition decode_zero_width_step (binary_secret : str) (secret_message : str)
    (i : nat) : str :=
  let byte := slice binary_secret i (i + 8) in
  if (length byte =? 8)%nat then
    match int_base2 byte with
    | Some n =>
        match chr n with
        | Some c => secret_message ++ [c]
        | None => secret_message (* except ValueError: pass *)
        end
    | None => secret_message (* except ValueError: pass *)
    end
  else secret_message.

Definition decode_zero_width (encoded_text : str) : str :=
  let binary_secret :=
    flat_map (fun c => dict_get ZERO_WIDTH_DECODE c) encoded_text in
  fold_left (decode_zero_width_step binary_secret)
            (py_range 0 (length binary_secret) 8) [].

Definition decode_tag (encoded_text : str) : str :=
  flat_map (fun char_code =>
              if (TAG_BASE <=? char_code) && (char_code <=? TAG_BASE + 0x7F)
              then [char_code - TAG_BASE] (* chr: always in range here *)
              else [])
           encoded_text.

(** ** Builtins used by injection.py *)

(** [len(s)] as a Python integer. *)
Definition len {A : Type} (s : list A) : Z := Z.of_nat (length s).

(** [s.startswith(prefix)] *)
Fixpoint startswith (s prefix : str) {struct prefix} : bool :=
  match prefix, s with
  | [], _ => true
  | p :: prefix', c :: s' => (c =? p) && startswith s' prefix'
  | _ :: _, [] => false
  end.

(** [s.split(sep)] for a one-character separator: never an empty list. *)
Fixpoint split_sep (sep : char) (s : str) : list str :=
  match s with
  | [] => [[]]
  | c :: s' =>
      if c =? sep then [] :: split_sep sep s'
      else match split_sep sep s' with
           | w :: ws => (c :: w) :: ws
           | [] => [[c]]
           end
  end.

(** [s.split()]: the maximal runs of non-whitespace characters, in order.
    [cur] is the word being read, its characters in reverse. *)
Fixpoint split_ws_from (s : str) (cur : str) : list str :=
  match s with
  | [] => match cur with [] => [] | _ => [rev cur] end
  | c :: s' =>
      if isspace c then
        match cur with
        | [] => split_ws_from s' []
        | _ => rev cur :: split_ws_from s' []
        end
      else split_ws_from s' (c :: cur)
  end.

Definition split_ws (s : str) : list str := split_ws_from s [].

(** The first index at which [sub] occurs in [s], counted from [i]. *)
Fixpoint find_from (sub s : str) (i : nat) : option nat :=
  match s with
  | [] => if startswith [] sub then Some i else None
  | _ :: s' => if startswith s sub then Some i else find_from sub s' (S i)
  end.

(** [s.find(sub, start)]: the lowest index of an occurrence at or after
    [start], or [-1]. *)
Definition str_find (s sub : str) (start : Z) : Z :=
  if (len s <? start)%Z then (-1)%Z
  else
    let b := clamp_index (length s) start in
    match find_from sub (skipn b s) b with
    | Some i => Z.of_nat i
    | None => (-1)%Z
    end.

Definition is_digit (c : char) : bool := (48 <=? c) && (c <=? 57).

(** The digit part of an integer literal: decimal digits, single
    underscores allowed between two digits. *)
Fixpoint int_digits (after_digit : bool) (acc : N) (s : str) : option N :=
  match s with
  | [] => if after_digit then Some acc else None
  | c :: s' =>
      if is_digit c then int_digits true (10 * acc + (c - 48)) s'
      else if (c =? 95) && after_digit then int_digits false acc s'
      else None
  end.

(** The whitespace [int] skips around a literal: the characters of
    [isspace] except U+001C..U+001F, which [int] does not take for
    whitespace and rejects. *)
Definition int_space (c : char) : bool :=
  isspace c && negb ((0x1C <=? c) && (c <=? 0x1F)).

Fixpoint lstrip (s : str) : str :=
  match s with
  | [] => []
  | c :: s' => if int_space c then lstrip s' else s
  end.

Definition strip (s : str) : str := rev (lstrip (rev (lstrip s))).

(** [int(s)]: surrounding whitespace, an optional sign, ASCII decimal
    digits.  [None] is the [ValueError] of a malformed literal.  Two things
    of the interpreter are left out: the decimal digits of other scripts,
    which [int] reads through its Unicode database, and the adjustable cap
    on the number of digits of a literal ([sys.set_int_max_str_digits]). *)
Definition py_int (s : str) : option Z :=
  match strip s with
  | [] => None
  | c :: r =>
      if c =? 43 then option_map Z.of_N (int_digits false 0 r)
      else if c =? 45 then option_map (fun n => (- Z.of_N n)%Z) (int_digits false 0 r)
      else option_map Z.of_N (int_digits false 0 (c :: r))
  end.

(** [str(n)] for an integer: the decimal digits, least significant digit
    produced first; [fuel] bounds the number of digits. *)
Fixpoint dec_digits (fuel : nat) (n : N) (acc : str) : str :=
  match fuel with
  | O => acc
  | S fuel' =>
      let acc' := (48 + n mod 10) :: acc in
      if n <? 10 then acc' else dec_digits fuel' (n / 10) acc'
  end.

Definition str_of_N (n : N) : str := dec_digits (S (N.to_nat (N.size n))) n [].

Definition str_of_int (n : Z) : str :=
  if (n <? 0)%Z then 45 :: str_of_N (Z.abs_N n) else str_of_N (Z.to_N n).

(** ** Errors *)

(** Every failure is a [ValueError]; one constructor per message. *)
Inductive ValueError : Type :=
| EmptyVisibleText        (* "Visible text cannot be empty for encoding." *)
| VisibleTextTooLong      (* "Visible text too long (max ...)" *)
| SecretTooLong           (* "Secret message too long (max ...)" *)
| NoWhitespaceFound       (* "No whitespace found for first-space injection" *)
| InvalidWordNumber       (* "Invalid word number in '...'": WordIndexOutOfRange *)
| InvalidCharPosition     (* "Invalid character position in '...'": CharOffsetOutOfRange *)
| UnknownInjectionPoint   (* "Unknown injection point: ...": UnknownPlacementRule *)
| UnknownEncodingMethod   (* "Unknown encoding method '...'": UnknownMethod *)
| UnknownDecodingMethod.  (* "Unknown decoding method '...'": UnknownMethod *)

Inductive result (A : Type) : Type :=
| Ok (a : A)
| Raise (e : ValueError).

Arguments Ok {A} a.
Arguments Raise {A} e.

Definition bind {A B : Type} (r : result A) (k : A -> result B) : result B :=
  match r with
  | Ok a => k a
  | Raise e => Raise e
  end.

Notation "x <- r ;; k" := (bind r (fun x => k))
  (at level 61, r at next level, right associativity).

(** ** injection.py *)

(** The [first-space] loop: [i + 1] for the first whitespace at index [i]. *)
Fixpoint first_space_from (s : str) (i : nat) : option Z :=
  match s with
  | [] => None
  | c :: s' => if isspace c then Some (Z.of_nat i + 1)%Z
               else first_space_from s' (S i)
  end.

(** One round of the [word-N] loop. *)
Definition word_step (visible_text : str) (words : list str) (word_end : Z)
    (i : nat) : Z :=
  (str_find visible_text (nth i words []) word_end + len (nth i words []))%Z.

(** The [word-N] branch once the number is parsed.  The inner [raise] is
    caught by the branch's own [except] and raised again with the branch's
    message. *)
Definition word_point (visible_text : str) (word_num : Z) : result Z :=
  let words := split_ws visible_text in
  if (word_num <? 1)%Z || (len words <? word_num)%Z then Raise InvalidWordNumber
  else Ok (fold_left (word_step visible_text words)
                     (seq 0 (Z.to_nat word_num)) 0%Z).

(** The [char-N] branch once the number is parsed. *)
Definition char_point (visible_text : str) (char_pos : Z) : result Z :=
  if (char_pos <? 0)%Z || (len visible_text <? char_pos)%Z
  then Raise InvalidCharPosition
  else Ok char_pos.

(** [int(injection_point.split("-")[1])]; [None] stands for the
    [ValueError] or [IndexError] the branch catches. *)
Definition rule_number (injection_point : str) : option Z :=
  match nth_error (split_sep 45 injection_point) 1 with
  | Some t => py_int t
  | None => None
  end.

Definition find_injection_point (visible_text injection_point : str) : result Z :=
  if str_eqb injection_point (py "first-space") then
    match first_space_from visible_text 0 with
    | Some pos => Ok pos
    | None => Raise NoWhitespaceFound
    end
  else if str_eqb injection_point (py "end") then Ok (len visible_text)
  else if startswith injection_point (py "word-") then
    match rule_number injection_point with
    | Some word_num => word_point visible_text word_num
    | None => Raise InvalidWordNumber
    end
  else if startswith injection_point (py "char-") then
    match rule_number injection_point with
    | Some char_pos => char_point visible_text char_pos
    | None => Raise InvalidCharPosition
    end
  else Raise UnknownInjectionPoint.

(** ** core.py *)

Definition MAX_SECRET_LENGTH : Z := 10000.
Definition MAX_VISIBLE_LENGTH : Z := 100000.

(** The characters the [tag] branch of [encode] lists in its warning;
    the warning is printed when the list is not empty and changes nothing
    in the returned value. *)
Definition non_ascii_chars (secret_message : str) : str :=
  filter (fun c => 0x7F <? c) secret_message.

Definition encode (visible_text secret_message method injection_point : str)
  : result str :=
  match visible_text with
  | [] => Raise EmptyVisibleText
  | _ =>
    if (MAX_VISIBLE_LENGTH <? len visible_text)%Z then Raise VisibleTextTooLong
    else if (MAX_SECRET_LENGTH <? len secret_message)%Z then Raise SecretTooLong
    else
      inject_pos <- find_injection_point visible_text injection_point ;;
      hidden_encoding <-
        (if str_eqb method (py "zero-width") then Ok (encode_zero_width secret_message)
         else if str_eqb method (py "tag") then Ok (encode_tag secret_message)
         else Raise UnknownEncodingMethod) ;;
      Ok (slice_to visible_text inject_pos ++ hidden_encoding
          ++ slice_from visible_text inject_pos)
  end.

(** The branches of [decode] for a named codec; the [auto] branch reaches
    them through its two recursive calls. *)
Definition decode_named (text_with_hidden_message method : str) : result str :=
  if str_eqb method (py "zero-width") then Ok (decode_zero_width text_with_hidden_message)
  else if str_eqb method (py "tag") then Ok (decode_tag text_with_hidden_message)
  else Raise UnknownDecodingMethod.

Definition decode (text_with_hidden_message method : str) : result str :=
  if str_eqb method (py "auto") then
    zero_width_result <- decode_named text_with_hidden_message (py "zero-width") ;;
    tag_result <- decode_named text_with_hidden_message (py "tag") ;;
    Ok (match zero_width_result with
        | [] => tag_result
        | _ => zero_width_result
        end)
  else decode_named text_with_hidden_message method.

(** ** Vocabulary of the properties *)

(** The carrier alphabets. *)
Definition zw_carrier (c : char) : bool := (c =? 0x200b) || (c =? 0x200c).
Definition tag_carrier (c : char) : bool :=
  (TAG_BASE <=? c) && (c <=? TAG_BASE + 0x7F).

Definition carrier_of (method : str) (c : char) : bool :=
  if str_eqb method (py "zero-width") then zw_carrier c
  else if str_eqb method (py "tag") then tag_carrier c
  else false.

(** Removing the carrier characters of a method from a text. *)
Definition strip_carrier (method : str) (text : str) : str :=
  filter (fun c => negb (carrier_of method c)) text.

(** The textual form of the placement rules. *)
Definition FirstSpace : str := py "first-space".
Definition End : str := py "end".
Definition WordIndex (n : Z) : str := py "word-" ++ str_of_int n.
Definition CharOffset (n : Z) : str := py "char-" ++ str_of_int n.

Definition ZeroWidth : str := py "zero-width".
Definition Tag : str := py "tag".
Definition Auto : str := py "auto".

(** * Properties *)

(** ** Generic facts on the loops *)

Lemma fold_left_invariant {A B : Type} (P : A -> Prop) (f : A -> B -> A) :
  (forall a b, P a -> P (f a b)) ->
  forall l a, P a -> P (fold_left f l a).
Proof.
  intros Hf l. induction l as [|b l IH]; intros a Ha; simpl; auto.
Qed.

Lemma bind_Ok {A B : Type} (r : result A) (k : A -> result B) (b : B) :
  bind r k = Ok b -> exists a, r = Ok a /\ k a = Ok b.
Proof. destruct r; simpl; intros H; [eauto | discriminate]. Qed.

(** ** The decoders stay in their range *)

Lemma int_base2_from_bound (s : str) :
  forall acc n, int_base2_from acc s = Some n ->
                n < (acc + 1) * 2 ^ N.of_nat (length s).
Proof.
  induction s as [|c s IH]; intros acc n H; cbn [int_base2_from] in H.
  - inversion H; subst. simpl. lia.
  - replace (N.of_nat (length (c :: s))) with (N.succ (N.of_nat (length s)))
      by (simpl; lia).
    rewrite N.pow_succ_r'.
    destruct (c =? 48).
    + apply IH in H. remember (2 ^ N.of_nat (length s)) as X. nia.
    + destruct (c =? 49); [|discriminate].
      apply IH in H. remember (2 ^ N.of_nat (length s)) as X. nia.
Qed.

Lemma int_base2_byte (byte : str) (n : N) :
  length byte = 8%nat -> int_base2 byte = Some n -> n <= 0xFF.
Proof.
  intros Hlen H. unfold int_base2 in H.
  destruct byte as [|c byte]; [discriminate|].
  apply int_base2_from_bound in H. rewrite Hlen in H.
  change (2 ^ N.of_nat 8) with 256 in H. lia.
Qed.

Lemma chr_Some (n c : N) : chr n = Some c -> c = n.
Proof. unfold chr. destruct (n <=? 0x10FFFF); congruence. Qed.

Lemma decode_zero_width_step_range (bits secret : str) (i : nat) :
  Forall (fun c => c <= 0xFF) secret ->
  Forall (fun c => c <= 0xFF) (decode_zero_width_step bits secret i).
Proof.
  intros Hs. unfold decode_zero_width_step.
  destruct (Nat.eqb_spec (length (slice bits i (i + 8))) 8) as [Hlen|]; auto.
  destruct (int_base2 (slice bits i (i + 8))) as [n|] eqn:Hn; auto.
  destruct (chr n) as [c|] eqn:Hc; auto.
  apply Forall_app. split; auto.
  constructor; auto.
  apply chr_Some in Hc. subst c. eapply int_base2_byte; eauto.
Qed.

(** C10: whatever the input text, the zero-width decoder only produces
    characters with code point at most 0xFF and the Tag decoder only
    characters with code point at most 0x7F. *)
Theorem decoders_in_range (text : str) :
  Forall (fun c => c <= 0xFF) (decode_zero_width text)
  /\ Forall (fun c => c <= 0x7F) (decode_tag text).
Proof.
  split.
  - unfold decode_zero_width.
    apply fold_left_invariant; [|constructor].
    intros a i Ha. now apply decode_zero_width_step_range.
  - unfold decode_tag.
    induction text as [|c text IH]; cbn [flat_map]; [constructor|].
    apply Forall_app. split; auto.
    destruct ((TAG_BASE <=? c) && (c <=? TAG_BASE + 0x7F)) eqn:E;
      [|constructor].
    apply andb_true_iff in E. destruct E as [_ E]. apply N.leb_le in E.
    constructor; [unfold TAG_BASE in *; lia|constructor].
Qed.

(** ** decode *)

Lemma decode_zero_width_method (text : str) :
  decode text ZeroWidth = Ok (decode_zero_width text).
Proof. reflexivity. Qed.

Lemma decode_tag_method (text : str) :
  decode text Tag = Ok (decode_tag text).
Proof. reflexivity. Qed.

Lemma decode_auto_method (text : str) :
  decode text Auto =
  Ok (match decode_zero_width text with
      | [] => decode_tag text
      | _ => decode_zero_width text
      end).
Proof. reflexivity. Qed.

(** C4: with method "auto", [decode] returns the zero-width result whenever
    that result is not empty, and the Tag result otherwise. *)
Theorem decode_auto_priority (text : str) :
  decode text Auto =
  Ok (if str_eqb (decode_zero_width text) []
      then decode_tag text
      else decode_zero_width text).
Proof.
  rewrite decode_auto_method.
  destruct (decode_zero_width text); reflexivity.
Qed.

(** ** The zero-width decoding loop, chunk by chunk *)

Definition zw_bits (text : str) : str :=
  flat_map (fun c => dict_get ZERO_WIDTH_DECODE c) text.

Definition decode_bits (bits : str) : str :=
  fold_left (decode_zero_width_step bits) (py_range 0 (length bits) 8) [].

(** What one round of the loop appends. *)
Definition byte_at (bits : str) (i : nat) : str :=
  decode_zero_width_step bits [] i.

Lemma decode_zero_width_bits (text : str) :
  decode_zero_width text = decode_bits (zw_bits text).
Proof. reflexivity. Qed.

Lemma decode_zero_width_step_app (bits secret : str) (i : nat) :
  decode_zero_width_step bits secret i = secret ++ byte_at bits i.
Proof.
  unfold byte_at, decode_zero_width_step.
  destruct (length (slice bits i (i + 8)) =? 8)%nat;
    [|now rewrite app_nil_r].
  destruct (int_base2 (slice bits i (i + 8))); [|now rewrite app_nil_r].
  destruct (chr n); [reflexivity | now rewrite app_nil_r].
Qed.

Lemma fold_decode_step (bits : str) (l : list nat) :
  forall secret,
    fold_left (decode_zero_width_step bits) l secret
    = secret ++ flat_map (byte_at bits) l.
Proof.
  induction l as [|i l IH]; intros secret; cbn [fold_left flat_map].
  - now rewrite app_nil_r.
  - rewrite IH, decode_zero_width_step_app. now rewrite app_assoc.
Qed.

Lemma py_range_8_next (m : nat) :
  py_range 0 (8 + m) 8 = 0%nat :: map (fun i => (i + 8)%nat) (py_range 0 m 8).
Proof.
  unfold py_range.
  replace (8 + m - 0 + (8 - 1))%nat with (1 * 8 + (m - 0 + (8 - 1)))%nat by lia.
  rewrite Nat.div_add_l by lia.
  cbn [Nat.add seq map]. f_equal.
  rewrite <- seq_shift, !map_map.
  apply map_ext. intros k. lia.
Qed.

Lemma byte_at_head (chunk rest : str) :
  length chunk = 8%nat -> byte_at (chunk ++ rest) 0 = byte_at chunk 0.
Proof.
  intros Hlen. unfold byte_at, decode_zero_width_step, slice.
  cbn [skipn Nat.add]. rewrite Nat.sub_0_r.
  rewrite firstn_app, Hlen, Nat.sub_diag, firstn_O, app_nil_r.
  reflexivity.
Qed.

Lemma byte_at_shift (chunk rest : str) (i : nat) :
  length chunk = 8%nat -> byte_at (chunk ++ rest) (i + 8) = byte_at rest i.
Proof.
  intros Hlen. unfold byte_at, decode_zero_width_step, slice.
  rewrite skipn_app, Hlen.
  rewrite (skipn_all2 chunk) by lia. cbn [app].
  replace (i + 8 - 8)%nat with i by lia.
  replace (i + 8 + 8 - (i + 8))%nat with (i + 8 - i)%nat by lia.
  reflexivity.
Qed.

(** A full chunk of eight bits is decoded on its own. *)
Lemma decode_bits_chunk (chunk rest : str) :
  length chunk = 8%nat ->
  decode_bits (chunk ++ rest) = byte_at chunk 0 ++ decode_bits rest.
Proof.
  intros Hlen. unfold decode_bits.
  rewrite !fold_decode_step. cbn [app].
  rewrite length_app, Hlen, py_range_8_next.
  cbn [flat_map]. rewrite byte_at_head by assumption. f_equal.
  rewrite flat_map_concat_map, map_map, <- flat_map_concat_map.
  apply flat_map_ext. intros i. now apply byte_at_shift.
Qed.

(** A trailing partial chunk is dropped. *)
Lemma decode_bits_short (bits : str) :
  (length bits < 8)%nat -> decode_bits bits = [].
Proof.
  intros H.
  do 8 (destruct bits as [|? bits]; [reflexivity|]).
  simpl in H. lia.
Qed.

(** ** Texts without carrier characters *)

Definition no_carrier (method : str) (text : str) : Prop :=
  Forall (fun c => carrier_of method c = false) text.

Lemma zw_dict_get (c : char) :
  dict_get ZERO_WIDTH_DECODE c
  = if c =? 0x200b then [48] else if c =? 0x200c then [49] else [].
Proof.
  unfold dict_get, ZERO_WIDTH_DECODE, ZERO_WIDTH_MAP. cbn [map dict_lookup fst snd].
  destruct (c =? 0x200b); [reflexivity|].
  destruct (c =? 0x200c); reflexivity.
Qed.

Lemma zw_dict_get_other (c : char) :
  zw_carrier c = false -> dict_get ZERO_WIDTH_DECODE c = [].
Proof.
  unfold zw_carrier. rewrite zw_dict_get. intros H.
  apply orb_false_iff in H. destruct H as [-> ->]. reflexivity.
Qed.

Lemma zw_bits_app (a b : str) : zw_bits (a ++ b) = zw_bits a ++ zw_bits b.
Proof. apply flat_map_app. Qed.

Lemma zw_bits_no_carrier (text : str) :
  Forall (fun c => zw_carrier c = false) text -> zw_bits text = [].
Proof.
  induction 1 as [|c text Hc _ IH]; [reflexivity|].
  unfold zw_bits in *. cbn [flat_map]. rewrite IH, zw_dict_get_other; auto.
Qed.

Lemma decode_tag_app (a b : str) :
  decode_tag (a ++ b) = decode_tag a ++ decode_tag b.
Proof. apply flat_map_app. Qed.

Lemma decode_tag_no_carrier (text : str) :
  Forall (fun c => tag_carrier c = false) text -> decode_tag text = [].
Proof.
  induction 1 as [|c text Hc _ IH]; [reflexivity|].
  unfold decode_tag in *. cbn [flat_map]. rewrite IH.
  unfold tag_carrier in Hc. rewrite Hc. reflexivity.
Qed.

Lemma no_carrier_zw (text : str) :
  no_carrier ZeroWidth text -> Forall (fun c => zw_carrier c = false) text.
Proof. exact (fun H => H). Qed.

Lemma no_carrier_tag (text : str) :
  no_carrier Tag text -> Forall (fun c => tag_carrier c = false) text.
Proof. exact (fun H => H). Qed.

(** C7: [decode] returns a string for the methods "zero-width", "tag" and
    "auto", whatever the text, and raises the unknown-method error for every
    other method; on a text without any carrier character the string it
    returns is empty. *)
Theorem decode_never_raises (text method : str) :
  (In method [ZeroWidth; Tag; Auto] ->
     exists secret, decode text method = Ok secret)
  /\ (~ In method [ZeroWidth; Tag; Auto] ->
        decode text method = Raise UnknownDecodingMethod)
  /\ (In method [ZeroWidth; Tag; Auto] ->
      no_carrier ZeroWidth text -> no_carrier Tag text ->
        decode text method = Ok []).
Proof.
  split; [|split].
  - intros [<-|[<-|[<-|[]]]]; eexists; reflexivity.
  - intros Hnot. unfold decode, decode_named.
    destruct (str_eqb method (py "auto")) eqn:Ea.
    { apply str_eqb_eq in Ea. exfalso. apply Hnot. subst. simpl. auto. }
    destruct (str_eqb method (py "zero-width")) eqn:Ez.
    { apply str_eqb_eq in Ez. exfalso. apply Hnot. subst. simpl. auto. }
    destruct (str_eqb method (py "tag")) eqn:Et.
    { apply str_eqb_eq in Et. exfalso. apply Hnot. subst. simpl. auto. }
    reflexivity.
  - intros Hin Hz Ht.
    assert (Ez : decode_zero_width text = []).
    { rewrite decode_zero_width_bits, zw_bits_no_carrier; auto. }
    assert (Et : decode_tag text = []) by now apply decode_tag_no_carrier.
    destruct Hin as [<-|[<-|[<-|[]]]].
    + rewrite decode_zero_width_method. now rewrite Ez.
    + rewrite decode_tag_method. now rewrite Et.
    + rewrite decode_auto_method. now rewrite Ez, Et.
Qed.

Lemma decode_never_raises_witness :
  (exists secret, decode (py "Hello world") Auto = Ok secret)
  /\ decode (py "Hello world") (py "rot13") = Raise UnknownDecodingMethod
  /\ decode (py "Hello world") Tag = Ok [].
Proof.
  split; [|split].
  - apply (proj1 (decode_never_raises (py "Hello world") Auto)).
    simpl. auto.
  - apply (proj1 (proj2 (decode_never_raises (py "Hello world") (py "rot13")))).
    simpl. intros [H|[H|[H|[]]]]; discriminate H.
  - apply (proj2 (proj2 (decode_never_raises (py "Hello world") Tag))).
    + simpl. auto.
    + unfold no_carrier. repeat constructor.
    + unfold no_carrier. repeat constructor.
Defined.

(** ** The binary rendering of a code point *)

Definition bit_digit (b : bool) : char := if b then 49 else 48.

(** The two carrier characters of the zero-width scheme. *)
Definition carrier_bit (b : bool) : char := if b then 0x200c else 0x200b.

(** Bits [width - 1] down to [0] of [c]: big-endian. *)
Definition big_endian_bits (width : nat) (c : N) : list bool :=
  map (fun i => N.testbit c (N.of_nat i)) (rev (seq 0 width)).

(** The number of digits [format(c, '08b')] produces. *)
Definition format_width (c : N) : nat := Nat.max 8 (N.size_nat c).

Lemma map_constant {A B : Type} (f : A -> B) (x : B) (l : list A) :
  (forall a, In a l -> f a = x) -> map f l = repeat x (length l).
Proof.
  induction l as [|a l IH]; intros H; [reflexivity|].
  cbn [map length repeat]. rewrite H by (left; reflexivity).
  f_equal. apply IH. intros b Hb. apply H. now right.
Qed.

Lemma pos_bin_length (p : positive) : length (pos_bin p) = Pos.size_nat p.
Proof.
  induction p as [q IH|q IH|]; cbn [pos_bin Pos.size_nat];
    rewrite ?length_app, ?IH; cbn [length]; lia.
Qed.

Lemma pos_size_nat_lt (p : positive) : Npos p < 2 ^ N.of_nat (Pos.size_nat p).
Proof.
  induction p as [q IH|q IH|]; cbn [Pos.size_nat];
    rewrite ?Nat2N.inj_succ, ?N.pow_succ_r'.
  - change (N.pos q~1) with (2 * N.pos q + 1). lia.
  - change (N.pos q~0) with (2 * N.pos q). lia.
  - reflexivity.
Qed.

Lemma pos_size_nat_ge (p : positive) : 2 ^ N.of_nat (Pos.size_nat p) <= 2 * Npos p.
Proof.
  induction p as [q IH|q IH|]; cbn [Pos.size_nat];
    rewrite ?Nat2N.inj_succ, ?N.pow_succ_r'.
  - change (N.pos q~1) with (2 * N.pos q + 1). lia.
  - change (N.pos q~0) with (2 * N.pos q). lia.
  - discriminate.
Qed.

Lemma testbit_above_size (c : N) (i : nat) :
  (N.size_nat c <= i)%nat -> N.testbit c (N.of_nat i) = false.
Proof.
  intros H. destruct c as [|p]; [reflexivity|].
  apply N.bits_above_log2. apply N.log2_lt_pow2; [lia|].
  eapply N.lt_le_trans; [apply pos_size_nat_lt|].
  apply N.pow_le_mono_r; [lia|]. cbn [N.size_nat] in H. lia.
Qed.

Lemma pos_bin_testbit (p : positive) :
  pos_bin p
  = map bit_digit (big_endian_bits (Pos.size_nat p) (Npos p)).
Proof.
  unfold big_endian_bits.
  induction p as [q IH|q IH|]; cbn [pos_bin Pos.size_nat]; [| |reflexivity].
  - rewrite IH. cbn [seq rev]. rewrite <- seq_shift.
    rewrite !map_app, <- !map_rev, !map_map. cbn [map]. f_equal.
    apply map_ext. intros i. rewrite Nat2N.inj_succ.
    change (N.pos q~1) with (2 * N.pos q + 1).
    now rewrite N.testbit_odd_succ by lia.
  - rewrite IH. cbn [seq rev]. rewrite <- seq_shift.
    rewrite !map_app, <- !map_rev, !map_map. cbn [map]. f_equal.
    apply map_ext. intros i. rewrite Nat2N.inj_succ.
    change (N.pos q~0) with (2 * N.pos q).
    now rewrite N.testbit_even_succ by lia.
Qed.

(** [format(c, '08b')] is the big-endian list of the bits of [c], on eight
    digits or on as many as [c] needs when that is more. *)
Lemma format_08b_testbit (c : N) :
  format_08b c = map bit_digit (big_endian_bits (format_width c) c).
Proof.
  destruct c as [|p]; [reflexivity|].
  unfold format_08b, format_width. cbn [bin N.size_nat].
  rewrite pos_bin_length, pos_bin_testbit. unfold big_endian_bits.
  set (L := Pos.size_nat p).
  replace (Nat.max 8 L) with (L + (8 - L))%nat by lia.
  rewrite seq_app, rev_app_distr, !map_app. f_equal.
  rewrite map_map. cbn [Nat.add].
  rewrite (map_constant _ 48).
  - now rewrite length_rev, length_seq.
  - intros i Hi. apply in_rev, in_seq in Hi.
    rewrite testbit_above_size; [reflexivity|]. cbn [N.size_nat]. lia.
Qed.

Lemma format_08b_length (c : N) : length (format_08b c) = format_width c.
Proof.
  rewrite format_08b_testbit. unfold big_endian_bits.
  now rewrite !length_map, length_rev, length_seq.
Qed.

Lemma format_width_small (c : N) : c <= 0xFF -> format_width c = 8%nat.
Proof.
  intros H. unfold format_width. destruct c as [|p]; [reflexivity|].
  cbn [N.size_nat]. apply Nat.max_l.
  destruct (Nat.le_gt_cases (Pos.size_nat p) 8) as [|Hgt]; [assumption|].
  pose proof (pos_size_nat_ge p) as Hge.
  assert (2 ^ 9 <= 2 ^ N.of_nat (Pos.size_nat p))
    by (apply N.pow_le_mono_r; lia).
  change (2 ^ 9) with 512 in *. lia.
Qed.

Lemma format_width_large (c : N) :
  0xFF < c -> format_width c = N.size_nat c /\ (8 < N.size_nat c)%nat.
Proof.
  intros H. unfold format_width. destruct c as [|p]; [lia|].
  cbn [N.size_nat].
  assert (8 < Pos.size_nat p)%nat.
  { destruct (Nat.le_gt_cases (Pos.size_nat p) 8) as [Hle|]; [|assumption].
    pose proof (pos_size_nat_lt p) as Hlt.
    assert (2 ^ N.of_nat (Pos.size_nat p) <= 2 ^ 8)
      by (apply N.pow_le_mono_r; lia).
    change (2 ^ 8) with 256 in *. lia. }
  split; [lia|assumption].
Qed.

(** ** The zero-width encoder *)

Lemma encode_zero_width_app (a b : str) :
  encode_zero_width (a ++ b) = encode_zero_width a ++ encode_zero_width b.
Proof. unfold encode_zero_width. now rewrite !flat_map_app. Qed.

Lemma encode_digits (bs : list bool) :
  flat_map (fun bit => dict_get ZERO_WIDTH_MAP bit) (map bit_digit bs)
  = map carrier_bit bs.
Proof.
  induction bs as [|b bs IH]; [reflexivity|].
  cbn [map flat_map]. rewrite IH. now destruct b.
Qed.

Lemma encode_zero_width_char (c : char) (s : str) :
  encode_zero_width (c :: s)
  = map carrier_bit (big_endian_bits (format_width c) c) ++ encode_zero_width s.
Proof.
  change (c :: s) with ([c] ++ s). rewrite encode_zero_width_app. f_equal.
  unfold encode_zero_width. cbn [flat_map]. rewrite app_nil_r.
  now rewrite format_08b_testbit, encode_digits.
Qed.

Lemma encode_zero_width_bits (s : str) :
  encode_zero_width s
  = flat_map (fun c => map carrier_bit (big_endian_bits (format_width c) c)) s.
Proof.
  induction s as [|c s IH]; [reflexivity|].
  rewrite encode_zero_width_char, IH. reflexivity.
Qed.

Lemma format_width_cases (c : N) :
  format_width c = if c <=? 0xFF then 8%nat else N.size_nat c.
Proof.
  destruct (N.leb_spec c 0xFF) as [Hle|Hgt].
  - now apply format_width_small.
  - now apply format_width_large.
Qed.

(** C2 (amended): in the carrier of any secret, every secret character
    with code point at most 255 is rendered as exactly eight carrier
    characters, its eight bits from the most significant to the least
    significant; a character above 255 is NOT cut down to eight bits: all
    the bits of its code point are emitted, more than eight carrier
    characters.  A secret whose characters are all at most 255 thus gives
    eight carrier characters per character. *)
Theorem encode_zero_width_eight_bits :
  (forall s,
     encode_zero_width s
     = flat_map
         (fun c =>
            map carrier_bit
                (big_endian_bits (if c <=? 0xFF then 8%nat else N.size_nat c) c))
         s)
  /\ (forall c, 0xFF < c -> (8 < N.size_nat c)%nat)
  /\ (forall s, Forall (fun c => c <= 0xFF) s ->
        length (encode_zero_width s) = (8 * length s)%nat).
Proof.
  split; [|split].
  - intros s. rewrite encode_zero_width_bits.
    apply flat_map_ext. intros c. now rewrite format_width_cases.
  - intros c Hc. now apply format_width_large.
  - intros s Hs. rewrite encode_zero_width_bits.
    induction Hs as [|c s Hc Hs IH]; [reflexivity|].
    cbn [flat_map]. rewrite length_app, IH, format_width_small by assumption.
    unfold big_endian_bits.
    rewrite !length_map, length_rev, length_seq. cbn [length]. lia.
Qed.

Lemma encode_zero_width_eight_bits_witness :
  encode_zero_width [97; 0x100; 98]
  = map carrier_bit (big_endian_bits 8 97)
    ++ map carrier_bit (big_endian_bits 9 0x100)
    ++ map carrier_bit (big_endian_bits 8 98)
  /\ (8 < N.size_nat 0x263A)%nat
  /\ length (encode_zero_width (py "hi")) = (8 * length (py "hi"))%nat.
Proof.
  split; [|split].
  - rewrite (proj1 encode_zero_width_eight_bits [97; 0x100; 98]).
    reflexivity.
  - apply (proj1 (proj2 encode_zero_width_eight_bits) 0x263A). reflexivity.
  - apply (proj2 (proj2 encode_zero_width_eight_bits) (py "hi")).
    repeat constructor; vm_compute; discriminate.
Defined.

(** C2, as first stated, fails: the character U+0100 is rendered on nine
    carrier characters, and they are not the eight low bits of 256. *)
Lemma encode_zero_width_no_truncation :
  length (encode_zero_width [0x100]) = 9%nat
  /\ encode_zero_width [0x100] <> map carrier_bit (big_endian_bits 8 0x100).
Proof. split; [reflexivity | discriminate]. Qed.

(** ** The first-space rule *)

Definition nonspace (c : char) : Prop := isspace c = false.

Lemma first_space_from_spec (s : str) :
  forall i,
    match first_space_from s i with
    | Some pos =>
        exists pre c post,
          s = pre ++ c :: post /\ Forall nonspace pre /\ isspace c = true
          /\ pos = (Z.of_nat i + len pre + 1)%Z
    | None => Forall nonspace s
    end.
Proof.
  induction s as [|c s IH]; intros i; cbn [first_space_from].
  - constructor.
  - destruct (isspace c) eqn:Hc.
    + exists [], c, s. repeat split; auto. unfold len. simpl. lia.
    + specialize (IH (S i)). destruct (first_space_from s (S i)) as [pos|].
      * destruct IH as (pre & d & post & -> & Hpre & Hd & ->).
        exists (c :: pre), d, post. repeat split; auto.
        unfold len. cbn [length]. lia.
      * constructor; assumption.
Qed.

Lemma find_injection_point_first_space (v : str) :
  find_injection_point v FirstSpace
  = match first_space_from v 0 with
    | Some pos => Ok pos
    | None => Raise NoWhitespaceFound
    end.
Proof. reflexivity. Qed.

(** C8: under the first-space rule the resolver returns the index of the
    first whitespace character plus one, and it fails, with the
    no-whitespace error, exactly when the text has no whitespace character;
    the "Helloworld" call fails that way. *)
Theorem first_space_rule (v : str) :
  ((exists pre c post,
       v = pre ++ c :: post /\ Forall nonspace pre /\ isspace c = true
       /\ find_injection_point v FirstSpace = Ok (len pre + 1)%Z)
   \/ (Forall nonspace v
       /\ find_injection_point v FirstSpace = Raise NoWhitespaceFound))
  /\ (find_injection_point v FirstSpace = Raise NoWhitespaceFound
      <-> Forall nonspace v)
  /\ encode (py "Helloworld") (py "test") ZeroWidth FirstSpace
     = Raise NoWhitespaceFound.
Proof.
  rewrite find_injection_point_first_space.
  pose proof (first_space_from_spec v 0) as H.
  destruct (first_space_from v 0) as [pos|].
  - destruct H as (pre & c & post & Hv & Hpre & Hc & Hpos).
    split; [|split; [|reflexivity]].
    + left. exists pre, c, post. repeat split; auto. f_equal. lia.
    + split; [discriminate|]. intros Hall. exfalso.
      rewrite Hv in Hall. apply Forall_app in Hall. destruct Hall as [_ Hall].
      inversion Hall as [|? ? Hn _]. unfold nonspace in Hn. congruence.
  - split; [|split; [|reflexivity]].
    + right. split; [assumption|reflexivity].
    + split; auto.
Qed.

(** ** The word-2 scenario *)

(** C6 (amended): on "The quick brown fox" the rule word-2 resolves to
    offset 9, the position right after "quick", and the call succeeds with
    the carrier of "x" spliced in between "The quick" and " brown fox". *)
Theorem encode_word_2_scenario :
  find_injection_point (py "The quick brown fox") (WordIndex 2) = Ok 9%Z
  /\ encode (py "The quick brown fox") (py "x") ZeroWidth (WordIndex 2)
     = Ok (py "The quick" ++ encode_zero_width (py "x") ++ py " brown fox").
Proof. split; reflexivity. Qed.

(** C6, as first stated, fails: the offset is not 15, and the text returned
    is not the one with the carrier at offset 15 (which is after "brown"). *)
Lemma encode_word_2_not_offset_15 :
  find_injection_point (py "The quick brown fox") (WordIndex 2) <> Ok 15%Z
  /\ encode (py "The quick brown fox") (py "x") ZeroWidth (WordIndex 2)
     <> Ok (slice_to (py "The quick brown fox") 15
            ++ encode_zero_width (py "x")
            ++ slice_from (py "The quick brown fox") 15).
Proof. split; vm_compute; discriminate. Qed.

(** ** Words and where they sit *)

(** The words of a text by position: one pair (start, end) per maximal run
    of non-whitespace characters, [end] being the position right after the
    run's last character.  [start] is the start of the run being read. *)
Fixpoint word_spans_from (s : str) (pos : nat) (start : option nat)
  : list (nat * nat) :=
  match s with
  | [] => match start with Some b => [(b, pos)] | None => [] end
  | c :: s' =>
      if isspace c then
        match start with
        | Some b => (b, pos) :: word_spans_from s' (S pos) None
        | None => word_spans_from s' (S pos) None
        end
      else
        word_spans_from s' (S pos)
                        (match start with Some b => Some b | None => Some pos end)
  end.

Definition word_spans (v : str) : list (nat * nat) := word_spans_from v 0 None.

(** The position right after the last character of the [n]-th word,
    counting words from 1. *)
Definition nth_word_end (v : str) (n : Z) : Z :=
  Z.of_nat (snd (nth (Z.to_nat n - 1) (word_spans v) (0, 0)%nat)).

Fixpoint take_while (p : char -> bool) (s : str) : str :=
  match s with
  | [] => []
  | c :: s' => if p c then c :: take_while p s' else []
  end.

Fixpoint drop_while (p : char -> bool) (s : str) : str :=
  match s with
  | [] => []
  | c :: s' => if p c then drop_while p s' else s
  end.

(** A text that is empty or starts with a character failing [p]. *)
Definition stops (p : char -> bool) (s : str) : Prop :=
  match s with
  | [] => True
  | c :: _ => p c = false
  end.

Lemma take_drop_while (p : char -> bool) (s : str) :
  take_while p s ++ drop_while p s = s.
Proof.
  induction s as [|c s IH]; [reflexivity|]. cbn [take_while drop_while].
  destruct (p c); [cbn [app]; now rewrite IH | reflexivity].
Qed.

Lemma take_while_all (p : char -> bool) (s : str) :
  Forall (fun c => p c = true) (take_while p s).
Proof.
  induction s as [|c s IH]; [constructor|]. cbn [take_while].
  destruct (p c) eqn:Hc; constructor; assumption.
Qed.

Lemma drop_while_stops (p : char -> bool) (s : str) : stops p (drop_while p s).
Proof.
  induction s as [|c s IH]; [exact I|]. cbn [drop_while].
  destruct (p c) eqn:Hc; [assumption | exact Hc].
Qed.

Lemma drop_while_length (p : char -> bool) (s : str) :
  (length (drop_while p s) <= length s)%nat.
Proof.
  rewrite <- (take_drop_while p s) at 2. rewrite length_app. lia.
Qed.

Definition isword (c : char) : bool := negb (isspace c).

(** The whitespace before the first word, the first word, and what follows. *)
Definition gap_of (s : str) : str := take_while isspace s.
Definition word_of (s : str) : str := take_while isword (drop_while isspace s).
Definition rest_of (s : str) : str := drop_while isword (drop_while isspace s).

Lemma gap_word_rest (s : str) : gap_of s ++ word_of s ++ rest_of s = s.
Proof.
  unfold gap_of, word_of, rest_of. now rewrite !take_drop_while.
Qed.

Lemma word_of_nil (s : str) : word_of s = [] -> rest_of s = [].
Proof.
  unfold word_of, rest_of.
  pose proof (drop_while_stops isspace s) as Hs.
  destruct (drop_while isspace s) as [|c t]; [reflexivity|].
  cbn [stops] in Hs. cbn [take_while drop_while]. unfold isword at 1 3.
  rewrite Hs. discriminate.
Qed.

Lemma rest_of_stops (s : str) : stops isword (rest_of s).
Proof. apply drop_while_stops. Qed.

Lemma rest_of_shorter (s : str) :
  word_of s <> [] -> (length (rest_of s) < length s)%nat.
Proof.
  intros Hw. rewrite <- (gap_word_rest s) at 2. rewrite !length_app.
  destruct (word_of s); [congruence|]. cbn [length]. lia.
Qed.

(** *** [split] along the decomposition *)

Lemma split_ws_from_gap (gap s : str) :
  Forall (fun c => isspace c = true) gap ->
  split_ws_from (gap ++ s) [] = split_ws_from s [].
Proof.
  induction 1 as [|c gap Hc _ IH]; [reflexivity|].
  cbn [app split_ws_from]. now rewrite Hc.
Qed.

Lemma split_ws_from_word (w rest : str) :
  Forall (fun c => isword c = true) w -> stops isword rest ->
  forall cur, w <> [] \/ cur <> [] ->
    split_ws_from (w ++ rest) cur = (rev cur ++ w) :: split_ws_from rest [].
Proof.
  intros Hw Hrest. induction Hw as [|c w Hc _ IH]; intros cur Hne.
  - destruct Hne as [Hne|Hne]; [congruence|].
    rewrite app_nil_r. cbn [app].
    destruct rest as [|d rest]; cbn [split_ws_from].
    + destruct cur; [congruence|reflexivity].
    + cbn [stops] in Hrest. unfold isword in Hrest.
      apply negb_false_iff in Hrest. rewrite Hrest.
      destruct cur; [congruence|reflexivity].
  - cbn [app split_ws_from]. unfold isword in Hc.
    apply negb_true_iff in Hc. rewrite Hc.
    rewrite IH by (right; discriminate).
    cbn [rev]. now rewrite <- app_assoc.
Qed.

(** [split] yields the first word, then the words of the rest. *)
Lemma split_ws_unfold (s : str) :
  split_ws s
  = match word_of s with
    | [] => []
    | _ => word_of s :: split_ws (rest_of s)
    end.
Proof.
  unfold split_ws. rewrite <- (gap_word_rest s) at 1.
  rewrite split_ws_from_gap by apply take_while_all.
  destruct (word_of s) as [|c w] eqn:Hw.
  - rewrite (word_of_nil s Hw). reflexivity.
  - rewrite <- Hw. rewrite split_ws_from_word.
    + reflexivity.
    + apply take_while_all.
    + apply rest_of_stops.
    + left. rewrite Hw. discriminate.
Qed.

(** *** The spans along the decomposition *)

Lemma word_spans_from_gap (gap s : str) :
  Forall (fun c => isspace c = true) gap ->
  forall pos,
    word_spans_from (gap ++ s) pos None
    = word_spans_from s (pos + length gap) None.
Proof.
  induction 1 as [|c gap Hc _ IH]; intros pos.
  - cbn [app length]. now rewrite Nat.add_0_r.
  - cbn [app word_spans_from length]. rewrite Hc, IH. f_equal. lia.
Qed.

Lemma word_spans_from_word (w rest : str) :
  Forall (fun c => isword c = true) w -> stops isword rest ->
  forall pos b,
    word_spans_from (w ++ rest) pos (Some b)
    = (b, pos + length w)%nat
        :: word_spans_from rest (pos + length w) None.
Proof.
  intros Hw Hrest. induction Hw as [|c w Hc _ IH]; intros pos b.
  - cbn [app length]. rewrite Nat.add_0_r.
    destruct rest as [|d rest]; cbn [word_spans_from]; [reflexivity|].
    cbn [stops] in Hrest. unfold isword in Hrest.
    apply negb_false_iff in Hrest. now rewrite Hrest.
  - cbn [app word_spans_from length]. unfold isword in Hc.
    apply negb_true_iff in Hc. rewrite Hc, IH.
    now rewrite Nat.add_succ_comm.
Qed.

Lemma word_spans_unfold (s : str) (pos : nat) :
  word_spans_from s pos None
  = match word_of s with
    | [] => []
    | _ =>
        let b := (pos + length (gap_of s))%nat in
        (b, b + length (word_of s))%nat
          :: word_spans_from (rest_of s) (b + length (word_of s)) None
    end.
Proof.
  rewrite <- (gap_word_rest s) at 1.
  rewrite word_spans_from_gap by apply take_while_all.
  destruct (word_of s) as [|c w] eqn:Hw.
  - rewrite (word_of_nil s Hw). reflexivity.
  - assert (Hall : Forall (fun c => isword c = true) (c :: w)).
    { rewrite <- Hw. apply take_while_all. }
    inversion Hall as [|? ? Hc Hall']; subst.
    cbn [app word_spans_from]. unfold isword in Hc.
    apply negb_true_iff in Hc. rewrite Hc.
    rewrite word_spans_from_word; auto using rest_of_stops.
    cbn zeta. cbn [length]. now rewrite Nat.add_succ_comm.
Qed.

(** *** The spans are the words *)

Lemma slice_middle (a w r : str) :
  slice (a ++ w ++ r) (length a) (length a + length w) = w.
Proof.
  unfold slice. rewrite skipn_app, Nat.sub_diag, skipn_all. cbn [app skipn].
  replace (length a + length w - length a)%nat with (length w) by lia.
  rewrite firstn_app, Nat.sub_diag, firstn_all, firstn_O. apply app_nil_r.
Qed.

Lemma spans_are_words_from (n : nat) :
  forall s, (length s <= n)%nat ->
  forall pre,
    map (fun se => slice (pre ++ s) (fst se) (snd se))
        (word_spans_from s (length pre) None)
    = split_ws s.
Proof.
  induction n as [|n IH]; intros s Hlen pre;
    rewrite word_spans_unfold, split_ws_unfold;
    destruct (word_of s) as [|c w] eqn:Hw; try reflexivity;
    rewrite <- Hw;
    (assert (Hlt : (length (rest_of s) < length s)%nat)
      by (apply rest_of_shorter; rewrite Hw; discriminate));
    [lia|].
  cbn zeta. cbn [map fst snd]. f_equal.
  - rewrite <- (gap_word_rest s) at 1. rewrite app_assoc, <- length_app.
    apply slice_middle.
  - specialize (IH (rest_of s) ltac:(lia) (pre ++ gap_of s ++ word_of s)).
    rewrite <- !app_assoc, gap_word_rest in IH.
    rewrite !length_app, !Nat.add_assoc in IH. exact IH.
Qed.

(** Each span delimits the word of the same rank. *)
Lemma spans_are_words (v : str) :
  map (fun se => slice v (fst se) (snd se)) (word_spans v) = split_ws v.
Proof. exact (spans_are_words_from (length v) v (Nat.le_refl _) []). Qed.

Lemma word_spans_length (v : str) :
  length (word_spans v) = length (split_ws v).
Proof. rewrite <- spans_are_words. now rewrite length_map. Qed.

(** *** [find] jumps over the whitespace to the next word *)

Lemma startswith_app (w rest : str) : startswith (w ++ rest) w = true.
Proof.
  induction w as [|c w IH]; [reflexivity|].
  cbn [app startswith]. now rewrite N.eqb_refl, IH.
Qed.

Lemma find_from_gap (gap w rest : str) :
  Forall (fun c => isspace c = true) gap ->
  Forall (fun c => isword c = true) w -> w <> [] ->
  forall i, find_from w (gap ++ w ++ rest) i = Some (i + length gap)%nat.
Proof.
  intros Hgap Hw Hne. destruct w as [|c w]; [congruence|].
  inversion Hw as [|? ? Hc _]; subst.
  induction Hgap as [|g gap Hg _ IH]; intros i.
  - cbn [app length find_from]. rewrite Nat.add_0_r.
    change (c :: w ++ rest) with ((c :: w) ++ rest).
    now rewrite startswith_app.
  - cbn [app find_from startswith length].
    destruct (N.eqb_spec g c) as [->|_].
    + unfold isword in Hc. rewrite Hg in Hc. discriminate.
    + cbn [andb]. cbn [app] in IH. rewrite IH. f_equal. lia.
Qed.

Lemma clamp_index_inside (n e : nat) :
  (e <= n)%nat -> clamp_index n (Z.of_nat e) = e.
Proof.
  intros H. unfold clamp_index.
  destruct (Z.ltb_spec (Z.of_nat e) 0); [lia|].
  rewrite Nat2Z.id. now apply Nat.min_l.
Qed.

Lemma str_find_next_word (v : str) (e : nat) (gap w rest : str) :
  (e <= length v)%nat -> skipn e v = gap ++ w ++ rest ->
  Forall (fun c => isspace c = true) gap ->
  Forall (fun c => isword c = true) w -> w <> [] ->
  str_find v w (Z.of_nat e) = Z.of_nat (e + length gap).
Proof.
  intros He Hs Hgap Hw Hne. unfold str_find, len.
  destruct (Z.ltb_spec (Z.of_nat (length v)) (Z.of_nat e)); [lia|].
  rewrite clamp_index_inside by assumption.
  now rewrite Hs, find_from_gap.
Qed.

(** *** The loop of the word rule *)

Lemma skipn_nth_cons {A : Type} (d : A) (l : list A) :
  forall k, (k < length l)%nat -> skipn k l = nth k l d :: skipn (S k) l.
Proof.
  induction l as [|a l IH]; intros k Hk; cbn [length] in Hk; [lia|].
  destruct k as [|k]; [reflexivity|].
  cbn [skipn nth]. rewrite IH by lia. reflexivity.
Qed.

Lemma skipn_cons_inv {A : Type} (d : A) (l : list A) (a : A) (r : list A) :
  forall k, skipn k l = a :: r -> nth k l d = a /\ skipn (S k) l = r.
Proof.
  induction l as [|b l IH]; intros k H.
  - rewrite skipn_nil in H. discriminate.
  - destruct k as [|k].
    + cbn [skipn] in H. inversion H; subst. split; reflexivity.
    + cbn [skipn] in H. apply IH in H. exact H.
Qed.

Lemma skipn_past_word (s : str) :
  skipn (length (gap_of s) + length (word_of s)) s = rest_of s.
Proof.
  transitivity (skipn (length (gap_of s ++ word_of s))
                      ((gap_of s ++ word_of s) ++ rest_of s)).
  - now rewrite <- app_assoc, gap_word_rest, length_app.
  - now rewrite skipn_app, Nat.sub_diag, skipn_all.
Qed.

(** After [k] rounds the loop stands right after the [k]-th word, and what
    lies ahead holds the remaining words. *)
Lemma word_loop (v : str) (k : nat) :
  (k <= length (split_ws v))%nat ->
  exists e,
    fold_left (word_step v (split_ws v)) (seq 0 k) 0%Z = Z.of_nat e
    /\ (e <= length v)%nat
    /\ split_ws (skipn e v) = skipn k (split_ws v)
    /\ word_spans_from (skipn e v) e None = skipn k (word_spans v)
    /\ ((1 <= k)%nat -> snd (nth (k - 1) (word_spans v) (0, 0)%nat) = e).
Proof.
  induction k as [|k IH]; intros Hk.
  - exists 0%nat. cbn [seq fold_left skipn]. repeat split; try lia.
  - destruct (IH ltac:(lia)) as (e & Hfold & He & Hwords & Hspans & _).
    rewrite seq_S, fold_left_app, Hfold. cbn [Nat.add fold_left].
    rewrite (skipn_nth_cons ([] : str) _ k) in Hwords by lia.
    set (w := nth k (split_ws v) ([] : str)) in *.
    set (s := skipn e v) in *.
    rewrite split_ws_unfold in Hwords.
    rewrite word_spans_unfold in Hspans.
    destruct (word_of s) as [|c w'] eqn:Hw; [discriminate|].
    rewrite <- Hw in Hwords, Hspans. cbn zeta in Hspans.
    assert (Hword : word_of s = w) by congruence.
    assert (Hrest : split_ws (rest_of s) = skipn (S k) (split_ws v))
      by congruence.
    assert (Hne : word_of s <> []) by (rewrite Hw; discriminate).
    assert (Hlen : (length (gap_of s) + length (word_of s)
                    + length (rest_of s) = length v - e)%nat).
    { pose proof (f_equal (@length char) (gap_word_rest s)) as Hsum.
      rewrite !length_app in Hsum. unfold s in Hsum at 4.
      rewrite length_skipn in Hsum. lia. }
    exists (e + length (gap_of s) + length (word_of s))%nat.
    repeat split.
    + unfold word_step. fold w. rewrite <- Hword.
      rewrite (str_find_next_word v e (gap_of s) (word_of s) (rest_of s)).
      * unfold len. lia.
      * exact He.
      * fold s. symmetry. apply gap_word_rest.
      * apply take_while_all.
      * apply take_while_all.
      * exact Hne.
    + lia.
    + rewrite <- Hrest.
      replace (e + length (gap_of s) + length (word_of s))%nat
        with (length (gap_of s) + length (word_of s) + e)%nat by lia.
      rewrite <- skipn_skipn. fold s. now rewrite skipn_past_word.
    + symmetry in Hspans.
      apply (skipn_cons_inv (0, 0)%nat) in Hspans. destruct Hspans as [_ ->].
      replace (e + length (gap_of s) + length (word_of s))%nat
        with (length (gap_of s) + length (word_of s) + e)%nat at 1 by lia.
      rewrite <- skipn_skipn. fold s. now rewrite skipn_past_word.
    + intros _. symmetry in Hspans.
      apply (skipn_cons_inv (0, 0)%nat) in Hspans. destruct Hspans as [Hn _].
      replace (S k - 1)%nat with k by lia. rewrite Hn. reflexivity.
Qed.

(** The word rule on a parsed number. *)
Lemma word_point_spec (v : str) (n : Z) :
  word_point v n
  = if (n <? 1)%Z || (len (split_ws v) <? n)%Z
    then Raise InvalidWordNumber
    else Ok (nth_word_end v n).
Proof.
  unfold word_point.
  destruct ((n <? 1)%Z || (len (split_ws v) <? n)%Z) eqn:Hguard;
    [reflexivity|].
  apply orb_false_iff in Hguard. destruct Hguard as [H1 H2].
  apply Z.ltb_ge in H1, H2. unfold len in H2.
  destruct (word_loop v (Z.to_nat n) ltac:(lia)) as (e & Hfold & _ & _ & _ & Hend).
  rewrite Hfold. unfold nth_word_end. rewrite Hend by lia. reflexivity.
Qed.

Lemma word_point_range (v : str) (n pos : Z) :
  word_point v n = Ok pos -> (0 <= pos <= len v)%Z.
Proof.
  unfold word_point.
  destruct ((n <? 1)%Z || (len (split_ws v) <? n)%Z) eqn:Hguard;
    [discriminate|].
  apply orb_false_iff in Hguard. destruct Hguard as [H1 H2].
  apply Z.ltb_ge in H1, H2. unfold len in H2.
  destruct (word_loop v (Z.to_nat n) ltac:(lia)) as (e & Hfold & He & _).
  rewrite Hfold. intros H. inversion H; subst. unfold len. lia.
Qed.

(** ** The textual form of the rules *)

Lemma digit_nonspace (c : char) : is_digit c = true -> isspace c = false.
Proof.
  unfold is_digit, isspace. intros H.
  apply andb_true_iff in H. destruct H as [H1 H2].
  apply N.leb_le in H1, H2.
  assert (E1 : (c <=? 0x0D) = false) by (apply N.leb_gt; lia).
  assert (E2 : (c <=? 0x20) = false) by (apply N.leb_gt; lia).
  assert (E3 : (0x2000 <=? c) = false) by (apply N.leb_gt; lia).
  rewrite E1, E2, E3, !andb_false_r. cbn [orb andb].
  repeat match goal with
         | |- context [c =? ?k] =>
             let E := fresh in
             assert (E : (c =? k) = false) by (apply N.eqb_neq; lia);
             rewrite E; clear E
         end.
  reflexivity.
Qed.

Definition digits (s : str) : Prop := Forall (fun c => is_digit c = true) s.

Lemma dec_digits_digits (fuel : nat) :
  forall n acc, digits acc -> digits (dec_digits fuel n acc).
Proof.
  induction fuel as [|fuel IH]; intros n acc Hacc; cbn [dec_digits]; auto.
  assert (Hd : digits ((48 + n mod 10) :: acc)).
  { constructor; [|assumption]. unfold is_digit.
    pose proof (N.mod_lt n 10 ltac:(lia)). remember (n mod 10) as d.
    apply andb_true_iff. split; apply N.leb_le; lia. }
  destruct (n <? 10); auto.
Qed.

Lemma dec_digits_nonempty (fuel : nat) (n : N) (acc : str) :
  dec_digits (S fuel) n acc <> [].
Proof.
  revert n acc. induction fuel as [|fuel IH]; intros n acc.
  - cbn [dec_digits]. destruct (n <? 10); discriminate.
  - change (dec_digits (S (S fuel)) n acc)
      with (if n <? 10 then (48 + n mod 10) :: acc
            else dec_digits (S fuel) (n / 10) ((48 + n mod 10) :: acc)).
    destruct (n <? 10); [discriminate | apply IH].
Qed.

Lemma str_of_N_digits (n : N) : digits (str_of_N n).
Proof. apply dec_digits_digits. constructor. Qed.

Lemma str_of_N_nonempty (n : N) : str_of_N n <> [].
Proof. apply dec_digits_nonempty. Qed.

(** Reading back the digits that [str] wrote. *)
Lemma int_digits_dec_digits (fuel : nat) :
  forall n acc b,
    n < 2 ^ N.of_nat fuel ->
    int_digits b 0 (dec_digits (S fuel) n acc) = int_digits true n acc.
Proof.
  assert (Hstep : forall n acc b k,
             int_digits b k ((48 + n mod 10) :: acc)
             = int_digits true (10 * k + n mod 10) acc).
  { intros n acc b k. cbn [int_digits].
    pose proof (N.mod_lt n 10 ltac:(lia)). remember (n mod 10) as d.
    assert (E : is_digit (48 + d) = true).
    { unfold is_digit. apply andb_true_iff. split; apply N.leb_le; lia. }
    rewrite E. f_equal. lia. }
  induction fuel as [|fuel IH]; intros n acc b Hn.
  - cbn [dec_digits]. change (2 ^ N.of_nat 0) with 1 in Hn.
    assert (n = 0) by lia. subst n. reflexivity.
  - change (dec_digits (S (S fuel)) n acc)
      with (if n <? 10 then (48 + n mod 10) :: acc
            else dec_digits (S fuel) (n / 10) ((48 + n mod 10) :: acc)).
    destruct (N.ltb_spec n 10) as [Hlt|Hge].
    + rewrite Hstep. f_equal. rewrite N.mod_small by assumption. lia.
    + rewrite IH.
      * rewrite Hstep. f_equal. symmetry. apply N.div_mod. lia.
      * rewrite Nat2N.inj_succ, N.pow_succ_r' in Hn.
        apply N.Div0.div_lt_upper_bound. lia.
Qed.

Lemma int_digits_str_of_N (n : N) : int_digits false 0 (str_of_N n) = Some n.
Proof.
  unfold str_of_N. rewrite int_digits_dec_digits; [reflexivity|].
  rewrite N2Nat.id. apply N.size_gt.
Qed.

Lemma lstrip_nonspace (c : char) (s : str) :
  isspace c = false -> lstrip (c :: s) = c :: s.
Proof. intros H. cbn [lstrip]. unfold int_space. now rewrite H. Qed.

Lemma strip_digits (s : str) : digits s -> strip s = s.
Proof.
  intros Hs. unfold strip.
  assert (Hl : forall t, digits t -> lstrip t = t).
  { intros [|c t] Ht; [reflexivity|]. inversion Ht; subst.
    now apply lstrip_nonspace, digit_nonspace. }
  rewrite (Hl s Hs), Hl, rev_involutive; [reflexivity|].
  now apply Forall_rev.
Qed.

Lemma py_int_str_of_N (n : N) : py_int (str_of_N n) = Some (Z.of_N n).
Proof.
  unfold py_int. rewrite strip_digits by apply str_of_N_digits.
  pose proof (int_digits_str_of_N n) as Hint.
  pose proof (str_of_N_digits n) as Hd.
  destruct (str_of_N n) as [|c r]; [discriminate|].
  inversion Hd as [|? ? Hc _]; subst.
  unfold is_digit in Hc. apply andb_true_iff in Hc. destruct Hc as [H1 H2].
  apply N.leb_le in H1, H2.
  destruct (N.eqb_spec c 43); [lia|].
  destruct (N.eqb_spec c 45); [lia|].
  now rewrite Hint.
Qed.

Lemma split_sep_digits (s : str) : digits s -> split_sep 45 s = [s].
Proof.
  induction 1 as [|c s Hc _ IH]; [reflexivity|].
  cbn [split_sep]. rewrite IH.
  unfold is_digit in Hc. apply andb_true_iff in Hc. destruct Hc as [H1 H2].
  apply N.leb_le in H1, H2.
  destruct (N.eqb_spec c 45); [lia|reflexivity].
Qed.

Lemma split_sep_nonempty (sep : char) (s : str) : split_sep sep s <> [].
Proof.
  destruct s as [|c s]; cbn [split_sep]; [discriminate|].
  destruct (c =? sep); [discriminate|].
  destruct (split_sep sep s); discriminate.
Qed.

(** The number read from the text after a five-character prefix that ends
    with its only dash, as in "word-" and "char-". *)
Lemma rule_number_after_dash (a b c d : char) (t : str) :
  a <> 45 -> b <> 45 -> c <> 45 -> d <> 45 ->
  rule_number (a :: b :: c :: d :: 45 :: t)
  = py_int (hd [] (split_sep 45 t)).
Proof.
  intros Ha Hb Hc Hd. unfold rule_number. cbn [split_sep].
  apply N.eqb_neq in Ha, Hb, Hc, Hd. rewrite Ha, Hb, Hc, Hd.
  change (45 =? 45) with true. cbn iota.
  pose proof (split_sep_nonempty 45 t) as Hne.
  destruct (split_sep 45 t) as [|w ws]; [congruence|]. reflexivity.
Qed.

Lemma rule_number_str_of_int (a b c d : char) (n : Z) :
  a <> 45 -> b <> 45 -> c <> 45 -> d <> 45 ->
  rule_number (a :: b :: c :: d :: 45 :: str_of_int n)
  = if (n <? 0)%Z then None else Some n.
Proof.
  intros Ha Hb Hc Hd. rewrite rule_number_after_dash by assumption.
  unfold str_of_int. destruct (Z.ltb_spec n 0) as [Hneg|Hpos].
  - cbn [split_sep]. change (45 =? 45) with true. reflexivity.
  - rewrite split_sep_digits by apply str_of_N_digits. cbn [hd].
    rewrite py_int_str_of_N. f_equal. lia.
Qed.

Lemma find_injection_point_word (v t : str) :
  find_injection_point v (py "word-" ++ t)
  = match rule_number (py "word-" ++ t) with
    | Some word_num => word_point v word_num
    | None => Raise InvalidWordNumber
    end.
Proof. reflexivity. Qed.

Lemma find_injection_point_char (v t : str) :
  find_injection_point v (py "char-" ++ t)
  = match rule_number (py "char-" ++ t) with
    | Some char_pos => char_point v char_pos
    | None => Raise InvalidCharPosition
    end.
Proof. reflexivity. Qed.

Lemma find_injection_point_end (v : str) :
  find_injection_point v End = Ok (len v).
Proof. reflexivity. Qed.

Lemma rule_number_WordIndex (n : Z) :
  rule_number (WordIndex n) = if (n <? 0)%Z then None else Some n.
Proof.
  unfold WordIndex. change (py "word-") with [119; 111; 114; 100; 45].
  cbn [app]. apply rule_number_str_of_int; discriminate.
Qed.

Lemma rule_number_CharOffset (n : Z) :
  rule_number (CharOffset n) = if (n <? 0)%Z then None else Some n.
Proof.
  unfold CharOffset. change (py "char-") with [99; 104; 97; 114; 45].
  cbn [app]. apply rule_number_str_of_int; discriminate.
Qed.

(** C5: under the rule word-n the resolver fails, with the error of the
    word branch, exactly when n < 1 or n exceeds the number of words given
    by the whitespace split; otherwise it returns the position right after
    the last character of the n-th word, the spans of the words being those
    of a left-to-right scan, so that a repeated word is found where it
    stands and not at its first occurrence. *)
Theorem word_index_rule (v : str) (n : Z) :
  find_injection_point v (WordIndex n)
  = (if (n <? 1)%Z || (len (split_ws v) <? n)%Z
     then Raise InvalidWordNumber
     else Ok (nth_word_end v n))
  /\ map (fun se => slice v (fst se) (snd se)) (word_spans v) = split_ws v
  /\ find_injection_point (py "a b a") (WordIndex 3) = Ok 5%Z.
Proof.
  split; [|split; [apply spans_are_words | reflexivity]].
  unfold WordIndex at 1. rewrite find_injection_point_word.
  fold (WordIndex n). rewrite rule_number_WordIndex.
  destruct (Z.ltb_spec n 0) as [Hneg|Hpos].
  - destruct (Z.ltb_spec n 1); [reflexivity|lia].
  - apply word_point_spec.
Qed.

(** ** Where a rule can point *)

Lemma char_point_range (v : str) (n pos : Z) :
  char_point v n = Ok pos -> (0 <= pos <= len v)%Z.
Proof.
  unfold char_point.
  destruct ((n <? 0)%Z || (len v <? n)%Z) eqn:Hguard; [discriminate|].
  apply orb_false_iff in Hguard. destruct Hguard as [H1 H2].
  apply Z.ltb_ge in H1, H2. intros H. inversion H; subst. lia.
Qed.

(** Every offset the resolver returns is an insertion index of the text. *)
Lemma find_injection_point_range (v p : str) (pos : Z) :
  find_injection_point v p = Ok pos -> (0 <= pos <= len v)%Z.
Proof.
  unfold find_injection_point.
  destruct (str_eqb p (py "first-space")).
  { pose proof (first_space_from_spec v 0) as H.
    destruct (first_space_from v 0) as [q|]; [|discriminate].
    destruct H as (pre & c & post & -> & _ & _ & ->).
    intros H. inversion H; subst. unfold len. rewrite length_app.
    cbn [length]. lia. }
  destruct (str_eqb p (py "end")).
  { intros H. inversion H; subst. unfold len. lia. }
  destruct (startswith p (py "word-")).
  { destruct (rule_number p); [apply word_point_range | discriminate]. }
  destruct (startswith p (py "char-")); [|discriminate].
  destruct (rule_number p); [apply char_point_range | discriminate].
Qed.

Lemma slice_to_inside (v : str) (pos : Z) :
  (0 <= pos <= len v)%Z -> slice_to v pos = firstn (Z.to_nat pos) v.
Proof.
  intros H. unfold slice_to. f_equal.
  rewrite <- (Z2Nat.id pos) at 1 by lia.
  apply clamp_index_inside. unfold len in H. lia.
Qed.

Lemma slice_from_inside (v : str) (pos : Z) :
  (0 <= pos <= len v)%Z -> slice_from v pos = skipn (Z.to_nat pos) v.
Proof.
  intros H. unfold slice_from. f_equal.
  rewrite <- (Z2Nat.id pos) at 1 by lia.
  apply clamp_index_inside. unfold len in H. lia.
Qed.

(** ** What [encode] returns *)

(** The carrier string of a secret under a method. *)
Definition hidden_encoding (method secret_message : str) : str :=
  if str_eqb method (py "zero-width") then encode_zero_width secret_message
  else if str_eqb method (py "tag") then encode_tag secret_message
  else [].

(** The text with the carrier spliced in at index [k]. *)
Definition splice (v carrier : str) (k : nat) : str :=
  firstn k v ++ carrier ++ skipn k v.

Lemma encode_Ok (v s m p r : str) :
  encode v s m p = Ok r ->
  v <> [] /\ (len v <= MAX_VISIBLE_LENGTH)%Z /\ (len s <= MAX_SECRET_LENGTH)%Z
  /\ (m = ZeroWidth \/ m = Tag)
  /\ exists pos,
       find_injection_point v p = Ok pos /\ (0 <= pos <= len v)%Z
       /\ r = splice v (hidden_encoding m s) (Z.to_nat pos).
Proof.
  unfold encode. intros H.
  destruct v as [|c0 v0] eqn:Hv; [discriminate|]. rewrite <- Hv in *.
  destruct (Z.ltb_spec MAX_VISIBLE_LENGTH (len v)); [discriminate|].
  destruct (Z.ltb_spec MAX_SECRET_LENGTH (len s)); [discriminate|].
  apply bind_Ok in H. destruct H as (pos & Hpos & H).
  apply bind_Ok in H. destruct H as (hidden & Hhidden & H).
  pose proof (find_injection_point_range v p pos Hpos) as Hrange.
  inversion H; subst r.
  rewrite slice_to_inside, slice_from_inside by assumption.
  assert (Hm : (m = ZeroWidth \/ m = Tag) /\ hidden = hidden_encoding m s).
  { unfold hidden_encoding.
    destruct (str_eqb m (py "zero-width")) eqn:Ez.
    - apply str_eqb_eq in Ez. split; [now left | congruence].
    - destruct (str_eqb m (py "tag")) eqn:Et; [|discriminate].
      apply str_eqb_eq in Et. split; [now right | congruence]. }
  destruct Hm as [Hm ->].
  repeat split; try assumption; try (subst v; discriminate).
  exists pos. repeat split; try assumption; lia.
Qed.

(** [encode] succeeds on every input that passes its checks. *)
Lemma encode_succeeds (v s m p : str) (pos : Z) :
  v <> [] -> (len v <= MAX_VISIBLE_LENGTH)%Z -> (len s <= MAX_SECRET_LENGTH)%Z ->
  m = ZeroWidth \/ m = Tag ->
  find_injection_point v p = Ok pos ->
  encode v s m p = Ok (splice v (hidden_encoding m s) (Z.to_nat pos)).
Proof.
  intros Hv Hlv Hls Hm Hpos. unfold encode.
  destruct v as [|c0 v0] eqn:Ev; [congruence|]. rewrite <- Ev in *.
  destruct (Z.ltb_spec MAX_VISIBLE_LENGTH (len v)); [lia|].
  destruct (Z.ltb_spec MAX_SECRET_LENGTH (len s)); [lia|].
  rewrite Hpos. cbn [bind].
  pose proof (find_injection_point_range v p pos Hpos) as Hrange.
  rewrite slice_to_inside, slice_from_inside by assumption.
  destruct Hm as [->| ->]; reflexivity.
Qed.

(** ** The carrier strings *)

Lemma carrier_of_ZeroWidth (c : char) : carrier_of ZeroWidth c = zw_carrier c.
Proof. reflexivity. Qed.

Lemma carrier_of_Tag (c : char) : carrier_of Tag c = tag_carrier c.
Proof. reflexivity. Qed.

Lemma encode_zero_width_carrier (s : str) :
  Forall (fun c => zw_carrier c = true) (encode_zero_width s).
Proof.
  rewrite encode_zero_width_bits.
  induction s as [|c s IH]; cbn [flat_map]; [constructor|].
  apply Forall_app. split; [|assumption].
  apply Forall_map, Forall_forall. intros [|] _; reflexivity.
Qed.

Lemma encode_tag_carrier (s : str) :
  Forall (fun c => tag_carrier c = true) (encode_tag s).
Proof.
  unfold encode_tag.
  induction s as [|c s IH]; cbn [flat_map]; [constructor|].
  apply Forall_app. split; [|assumption].
  destruct (N.leb_spec c 0x7F); constructor; [|constructor].
  unfold tag_carrier, TAG_BASE.
  apply andb_true_iff. split; apply N.leb_le; lia.
Qed.

Lemma hidden_encoding_carrier (m s : str) :
  Forall (fun c => carrier_of m c = true) (hidden_encoding m s).
Proof.
  unfold hidden_encoding, carrier_of.
  destruct (str_eqb m (py "zero-width")); [apply encode_zero_width_carrier|].
  destruct (str_eqb m (py "tag")); [apply encode_tag_carrier | constructor].
Qed.

Lemma no_carrier_firstn (m v : str) (k : nat) :
  no_carrier m v -> no_carrier m (firstn k v).
Proof.
  intros H. rewrite <- (firstn_skipn k v) in H.
  apply Forall_app in H. tauto.
Qed.

Lemma no_carrier_skipn (m v : str) (k : nat) :
  no_carrier m v -> no_carrier m (skipn k v).
Proof.
  intros H. rewrite <- (firstn_skipn k v) in H.
  apply Forall_app in H. tauto.
Qed.

(** ** Removing the carrier *)

Lemma strip_carrier_app (m a b : str) :
  strip_carrier m (a ++ b) = strip_carrier m a ++ strip_carrier m b.
Proof. apply filter_app. Qed.

Lemma strip_carrier_none (m v : str) : no_carrier m v -> strip_carrier m v = v.
Proof.
  induction 1 as [|c v Hc _ IH]; [reflexivity|].
  unfold strip_carrier in *. cbn [filter]. rewrite Hc, IH. reflexivity.
Qed.

Lemma strip_carrier_all (m t : str) :
  Forall (fun c => carrier_of m c = true) t -> strip_carrier m t = [].
Proof.
  induction 1 as [|c t Hc _ IH]; [reflexivity|].
  unfold strip_carrier in *. cbn [filter]. rewrite Hc, IH. reflexivity.
Qed.

(** C3 (amended): when the visible text holds no character of the method's
    carrier alphabet, removing the carrier characters from the encoded text
    gives the visible text back, wherever the carrier was placed. *)
Theorem carrier_removable (v s m p r : str) :
  no_carrier m v ->
  encode v s m p = Ok r ->
  strip_carrier m r = v.
Proof.
  intros Hv He. apply encode_Ok in He.
  destruct He as (_ & _ & _ & _ & pos & _ & _ & ->).
  unfold splice. rewrite !strip_carrier_app.
  rewrite (strip_carrier_all m (hidden_encoding m s))
    by apply hidden_encoding_carrier.
  rewrite !strip_carrier_none
    by (apply no_carrier_firstn || apply no_carrier_skipn; assumption).
  cbn [app]. apply firstn_skipn.
Qed.

Lemma carrier_removable_witness :
  strip_carrier Tag
    (py "Hello " ++ encode_tag (py "test") ++ py "world")
  = py "Hello world".
Proof.
  apply (carrier_removable (py "Hello world") (py "test") Tag FirstSpace).
  - unfold no_carrier. repeat constructor.
  - reflexivity.
Defined.

(** C3, as first stated, fails: a visible text that already holds a
    zero-width space loses it with the carrier. *)
Lemma carrier_removable_needs_clean_text :
  exists r,
    encode [97; 0x200b; 98] (py "x") ZeroWidth End = Ok r
    /\ strip_carrier ZeroWidth r <> [97; 0x200b; 98].
Proof. eexists. split; [reflexivity | vm_compute; discriminate]. Qed.

(** ** Decoding an encoded text *)

Lemma int_base2_from_zeros (k : nat) (t : str) :
  int_base2_from 0 (repeat 48 k ++ t) = int_base2_from 0 t.
Proof.
  induction k as [|k IH]; [reflexivity|].
  cbn [repeat app int_base2_from]. change (48 =? 48) with true.
  cbn iota. exact IH.
Qed.

Lemma int_base2_from_pos_bin (p : positive) :
  forall acc t,
    int_base2_from acc (pos_bin p ++ t)
    = int_base2_from (acc * 2 ^ N.of_nat (Pos.size_nat p) + Npos p) t.
Proof.
  induction p as [q IH|q IH|]; intros acc t; cbn [pos_bin Pos.size_nat];
    rewrite ?Nat2N.inj_succ, ?N.pow_succ_r'.
  - rewrite <- app_assoc, IH. cbn [app int_base2_from].
    change (49 =? 48) with false. change (49 =? 49) with true. cbn iota.
    f_equal. change (N.pos q~1) with (2 * N.pos q + 1). lia.
  - rewrite <- app_assoc, IH. cbn [app int_base2_from].
    change (48 =? 48) with true. cbn iota.
    f_equal. change (N.pos q~0) with (2 * N.pos q). lia.
  - cbn [app int_base2_from].
    change (49 =? 48) with false. change (49 =? 49) with true. cbn iota.
    f_equal. change (2 ^ N.of_nat 1) with 2. lia.
Qed.

(** [int(format(c, '08b'), 2)] is [c]. *)
Lemma int_base2_format_08b (c : N) : int_base2 (format_08b c) = Some c.
Proof.
  assert (H : int_base2_from 0 (format_08b c) = Some c).
  { unfold format_08b. rewrite int_base2_from_zeros.
    destruct c as [|p]; [reflexivity|]. cbn [bin].
    rewrite <- (app_nil_r (pos_bin p)), int_base2_from_pos_bin.
    reflexivity. }
  pose proof (format_08b_length c) as Hlen. unfold format_width in Hlen.
  unfold int_base2. destruct (format_08b c); [|exact H].
  cbn [length] in Hlen. lia.
Qed.

Lemma byte_at_format_08b (c : N) :
  c <= 0xFF -> byte_at (format_08b c) 0 = [c].
Proof.
  intros Hc.
  assert (Hlen : length (format_08b c) = 8%nat)
    by (rewrite format_08b_length; now apply format_width_small).
  assert (Hslice : slice (format_08b c) 0 (0 + 8) = format_08b c).
  { unfold slice. cbn [skipn Nat.add]. rewrite Nat.sub_0_r, <- Hlen.
    apply firstn_all. }
  unfold byte_at, decode_zero_width_step. cbv zeta.
  rewrite Hslice, Hlen, Nat.eqb_refl, int_base2_format_08b. unfold chr.
  destruct (N.leb_spec c 0x10FFFF); [reflexivity | lia].
Qed.

Lemma decode_bits_format (s : str) :
  Forall (fun c => c <= 0xFF) s ->
  decode_bits (flat_map (fun c => format_08b c) s) = s.
Proof.
  induction 1 as [|c s Hc _ IH]; [reflexivity|].
  cbn [flat_map]. rewrite decode_bits_chunk.
  - rewrite byte_at_format_08b, IH by assumption. reflexivity.
  - rewrite format_08b_length. now apply format_width_small.
Qed.

Lemma zw_bits_carrier_bits (bs : list bool) :
  zw_bits (map carrier_bit bs) = map bit_digit bs.
Proof.
  induction bs as [|b bs IH]; [reflexivity|].
  unfold zw_bits in *. cbn [map flat_map]. rewrite IH. now destruct b.
Qed.

(** The decoder reads back exactly the digits the encoder wrote. *)
Lemma zw_bits_encode (s : str) :
  zw_bits (encode_zero_width s) = flat_map (fun c => format_08b c) s.
Proof.
  induction s as [|c s IH]; [reflexivity|].
  rewrite encode_zero_width_char, zw_bits_app, IH, zw_bits_carrier_bits.
  cbn [flat_map]. now rewrite format_08b_testbit.
Qed.

Lemma decode_zero_width_splice (v carrier : str) (k : nat) :
  no_carrier ZeroWidth v ->
  decode_zero_width (splice v carrier k) = decode_zero_width carrier.
Proof.
  intros Hv. rewrite !decode_zero_width_bits. unfold splice.
  rewrite !zw_bits_app.
  rewrite (zw_bits_no_carrier (firstn k v))
    by (apply no_carrier_zw, no_carrier_firstn, Hv).
  rewrite (zw_bits_no_carrier (skipn k v))
    by (apply no_carrier_zw, no_carrier_skipn, Hv).
  now rewrite app_nil_r.
Qed.

Lemma decode_tag_splice (v carrier : str) (k : nat) :
  no_carrier Tag v ->
  decode_tag (splice v carrier k) = decode_tag carrier.
Proof.
  intros Hv. unfold splice. rewrite !decode_tag_app.
  rewrite (decode_tag_no_carrier (firstn k v))
    by (apply no_carrier_tag, no_carrier_firstn, Hv).
  rewrite (decode_tag_no_carrier (skipn k v))
    by (apply no_carrier_tag, no_carrier_skipn, Hv).
  now rewrite app_nil_r.
Qed.

Lemma decode_zero_width_encode (s : str) :
  Forall (fun c => c <= 0xFF) s ->
  decode_zero_width (encode_zero_width s) = s.
Proof.
  intros Hs. rewrite decode_zero_width_bits, zw_bits_encode.
  now apply decode_bits_format.
Qed.

Lemma decode_tag_encode (s : str) :
  Forall (fun c => c <= 0x7F) s -> decode_tag (encode_tag s) = s.
Proof.
  induction 1 as [|c s Hc _ IH]; [reflexivity|].
  change (c :: s) with ([c] ++ s) at 1.
  unfold encode_tag in *. rewrite flat_map_app, decode_tag_app, IH.
  cbn [flat_map]. destruct (N.leb_spec c 0x7F); [|lia].
  unfold decode_tag. cbn [flat_map app].
  assert (E : (TAG_BASE <=? TAG_BASE + c) && (TAG_BASE + c <=? TAG_BASE + 0x7F)
              = true).
  { apply andb_true_iff. split; apply N.leb_le; unfold TAG_BASE; lia. }
  rewrite E. cbn [app]. f_equal. lia.
Qed.

(** Decoding only sees the carrier, wherever it was spliced in. *)
Lemma decode_splice (v m s : str) (k : nat) :
  m = ZeroWidth \/ m = Tag -> no_carrier m v ->
  decode (splice v (hidden_encoding m s) k) m
  = decode (hidden_encoding m s) m.
Proof.
  intros [-> | ->] Hv.
  - rewrite !decode_zero_width_method. now rewrite decode_zero_width_splice.
  - rewrite !decode_tag_method. now rewrite decode_tag_splice.
Qed.

(** The secrets a method can carry. *)
Definition representable (method secret_message : str) : Prop :=
  (method = ZeroWidth /\ Forall (fun c => c <= 0xFF) secret_message)
  \/ (method = Tag /\ Forall (fun c => c <= 0x7F) secret_message).

(** C1 (amended): for a non-empty visible text within the length limit that
    holds no character of the method's carrier alphabet, a secret within its
    length limit that the method can carry (code points at most 0xFF for
    zero-width, ASCII for Tag) and a placement rule that resolves, [encode]
    succeeds and decoding its result with the same method gives the secret
    back; so it is for the empty secret. *)
Theorem round_trip (v s m p : str) (pos : Z) :
  v <> [] ->
  (len v <= MAX_VISIBLE_LENGTH)%Z ->
  (len s <= MAX_SECRET_LENGTH)%Z ->
  representable m s ->
  find_injection_point v p = Ok pos ->
  no_carrier m v ->
  (exists r, encode v s m p = Ok r /\ decode r m = Ok s)
  /\ (exists r, encode v [] m p = Ok r /\ decode r m = Ok []).
Proof.
  intros Hv Hlv Hls Hrep Hpos Hclean.
  assert (Hm : m = ZeroWidth \/ m = Tag) by (destruct Hrep as [[? _]|[? _]]; auto).
  split.
  - eexists. split; [now apply (encode_succeeds v s m p pos)|].
    rewrite decode_splice by assumption.
    destruct Hrep as [[-> Hs] | [-> Hs]].
    + rewrite decode_zero_width_method. f_equal.
      now apply decode_zero_width_encode.
    + rewrite decode_tag_method. f_equal. now apply decode_tag_encode.
  - eexists. split.
    + apply (encode_succeeds v [] m p pos); auto.
      unfold len, MAX_SECRET_LENGTH. cbn [length]. lia.
    + rewrite decode_splice by assumption.
      destruct Hm as [-> | ->]; reflexivity.
Qed.

Lemma round_trip_witness :
  (exists r, encode (py "Hello world") (py "test") ZeroWidth FirstSpace = Ok r
             /\ decode r ZeroWidth = Ok (py "test"))
  /\ (exists r, encode (py "Hello world") [] ZeroWidth FirstSpace = Ok r
                /\ decode r ZeroWidth = Ok []).
Proof.
  apply (round_trip (py "Hello world") (py "test") ZeroWidth FirstSpace 6%Z).
  - discriminate.
  - unfold len, MAX_VISIBLE_LENGTH. simpl. lia.
  - unfold len, MAX_SECRET_LENGTH. simpl. lia.
  - left. split; [reflexivity|]. repeat constructor; vm_compute; discriminate.
  - reflexivity.
  - unfold no_carrier. repeat constructor.
Defined.

(** C1, as first stated, fails: a visible text that already holds a Tag
    character gives that character back as part of the secret, even for the
    empty secret. *)
Lemma round_trip_needs_clean_text :
  exists r,
    encode [0xE0041] [] Tag End = Ok r /\ decode r Tag <> Ok [].
Proof. eexists. split; [reflexivity | vm_compute; discriminate]. Qed.

(** ** One secret, several placements *)

Lemma splice_nth_carrier (v : str) (c0 : char) (carrier : str) (a : nat) :
  (a <= length v)%nat ->
  nth_error (splice v (c0 :: carrier) a) a = Some c0.
Proof.
  intros Ha. unfold splice.
  rewrite nth_error_app2 by (rewrite length_firstn; lia).
  rewrite length_firstn, Nat.min_l, Nat.sub_diag by assumption.
  reflexivity.
Qed.

Lemma splice_nth_before (v carrier : str) (a b : nat) :
  (a < b)%nat -> (b <= length v)%nat ->
  nth_error (splice v carrier b) a = nth_error v a.
Proof.
  intros Hab Hb. unfold splice.
  assert (Hlen : length (firstn b v) = b)
    by (rewrite length_firstn; now apply Nat.min_l).
  rewrite nth_error_app1 by lia.
  rewrite <- (firstn_skipn b v) at 2.
  now rewrite nth_error_app1 by lia.
Qed.

(** Two different offsets give two different texts, as soon as there is a
    carrier to see and the visible text cannot be mistaken for it. *)
Lemma splice_offsets_differ (m v carrier : str) (a b : nat) :
  no_carrier m v ->
  Forall (fun c => carrier_of m c = true) carrier -> carrier <> [] ->
  (a < b)%nat -> (b <= length v)%nat ->
  splice v carrier a <> splice v carrier b.
Proof.
  intros Hv Hc Hne Hab Hb Heq.
  destruct carrier as [|c0 carrier]; [congruence|].
  assert (H1 : nth_error (splice v (c0 :: carrier) a) a = Some c0)
    by (apply splice_nth_carrier; lia).
  rewrite Heq, splice_nth_before in H1 by assumption.
  apply nth_error_In in H1.
  unfold no_carrier in Hv. rewrite Forall_forall in Hv.
  specialize (Hv c0 H1). inversion Hc; subst. congruence.
Qed.

(** C9 (amended): for a visible text that holds no character of the
    method's carrier alphabet, the encodings of one secret under two rules
    that resolve decode to the same string, the decoding of the carrier
    alone; the two encodings are equal when the rules resolve to the same
    offset, and they differ when the offsets differ and the carrier string
    is not empty. *)
Theorem placement_invariance (v s m p1 p2 r1 r2 : str) (pos1 pos2 : Z) :
  no_carrier m v ->
  find_injection_point v p1 = Ok pos1 ->
  find_injection_point v p2 = Ok pos2 ->
  encode v s m p1 = Ok r1 ->
  encode v s m p2 = Ok r2 ->
  (exists secret, decode r1 m = Ok secret /\ decode r2 m = Ok secret
                  /\ decode (hidden_encoding m s) m = Ok secret)
  /\ (pos1 = pos2 -> r1 = r2)
  /\ (pos1 <> pos2 -> hidden_encoding m s <> [] -> r1 <> r2).
Proof.
  intros Hv Hp1 Hp2 He1 He2.
  apply encode_Ok in He1, He2.
  destruct He1 as (_ & _ & _ & Hm & q1 & Hq1 & Hr1 & ->).
  destruct He2 as (_ & _ & _ & _ & q2 & Hq2 & Hr2 & ->).
  assert (q1 = pos1) by congruence. assert (q2 = pos2) by congruence.
  subst q1 q2. split; [|split].
  - rewrite !decode_splice by assumption.
    destruct Hm as [-> | ->]; eexists; repeat split; reflexivity.
  - intros ->. reflexivity.
  - intros Hneq Hne. unfold len in Hr1, Hr2.
    destruct (Z.lt_total pos1 pos2) as [Hlt|[Heq|Hgt]]; [|congruence|].
    + apply (splice_offsets_differ m); auto using hidden_encoding_carrier; lia.
    + intros Heq. symmetry in Heq. revert Heq.
      apply (splice_offsets_differ m); auto using hidden_encoding_carrier; lia.
Qed.

Lemma placement_invariance_witness :
  (exists secret,
      decode (py "The " ++ encode_tag (py "hidden") ++ py "quick brown fox") Tag
      = Ok secret
      /\ decode (py "The quick brown fox" ++ encode_tag (py "hidden") ++ []) Tag
         = Ok secret
      /\ decode (hidden_encoding Tag (py "hidden")) Tag = Ok secret)
  /\ (4%Z = 19%Z ->
      py "The " ++ encode_tag (py "hidden") ++ py "quick brown fox"
      = py "The quick brown fox" ++ encode_tag (py "hidden") ++ [])
  /\ (4%Z <> 19%Z -> hidden_encoding Tag (py "hidden") <> [] ->
      py "The " ++ encode_tag (py "hidden") ++ py "quick brown fox"
      <> py "The quick brown fox" ++ encode_tag (py "hidden") ++ []).
Proof.
  apply (placement_invariance (py "The quick brown fox") (py "hidden") Tag
                              FirstSpace End).
  - unfold no_carrier. repeat constructor.
  - reflexivity.
  - reflexivity.
  - reflexivity.
  - reflexivity.
Defined.

(** C9, as first stated, fails twice: with an empty secret two rules that
    resolve to different offsets give the same text; and on a visible text
    that already holds a Tag character the decoded string depends on the
    placement. *)
Lemma placement_invariance_fails :
  (find_injection_point (py "a b") FirstSpace = Ok 2%Z
   /\ find_injection_point (py "a b") End = Ok 3%Z
   /\ encode (py "a b") [] ZeroWidth FirstSpace
      = encode (py "a b") [] ZeroWidth End)
  /\ (exists r1 r2,
        encode [0xE0041; 120] (py "B") Tag (CharOffset 0) = Ok r1
        /\ encode [0xE0041; 120] (py "B") Tag End = Ok r2
        /\ decode r1 Tag <> decode r2 Tag).
Proof.
  split.
  - repeat split; reflexivity.
  - eexists. eexists. split; [reflexivity|]. split; [reflexivity|].
    vm_compute. discriminate.
Qed.

(** * Further properties of the codecs *)

(** ** The Tag codec on arbitrary secrets *)

Definition is_ascii (c : char) : bool := c <=? 0x7F.

Lemma encode_tag_cons (c : char) (s : str) :
  encode_tag (c :: s)
  = (if is_ascii c then [TAG_BASE + c] else []) ++ encode_tag s.
Proof. reflexivity. Qed.

Lemma decode_tag_cons (c : char) (t : str) :
  decode_tag (c :: t)
  = (if tag_carrier c then [c - TAG_BASE] else []) ++ decode_tag t.
Proof. reflexivity. Qed.

Lemma tag_carrier_of_ascii (c : char) :
  is_ascii c = true -> tag_carrier (TAG_BASE + c) = true.
Proof.
  unfold is_ascii, tag_carrier, TAG_BASE. intros H. apply N.leb_le in H.
  apply andb_true_iff. split; apply N.leb_le; lia.
Qed.

(** X1: The Tag encoder drops every character above 0x7F and nothing else:
    decoding what it wrote gives the ASCII characters of the secret, in
    order. *)
Theorem decode_tag_encode_tag (s : str) :
  decode_tag (encode_tag s) = filter is_ascii s.
Proof.
  induction s as [|c s IH]; [reflexivity|].
  rewrite encode_tag_cons, decode_tag_app, IH. cbn [filter].
  destruct (is_ascii c) eqn:Hc; [|reflexivity].
  rewrite decode_tag_cons, (tag_carrier_of_ascii c Hc). cbn [app].
  f_equal. unfold TAG_BASE. lia.
Qed.

(** The characters above 0x7F and the carrier of the Tag encoder add up
    to the secret. *)
Lemma encode_tag_skipped_count (s : str) :
  (length (encode_tag s) + length (non_ascii_chars s) = length s)%nat
  /\ (non_ascii_chars s = [] <-> length (encode_tag s) = length s).
Proof.
  assert (H : (length (encode_tag s) + length (non_ascii_chars s)
               = length s)%nat).
  { induction s as [|c s IH]; [reflexivity|].
    rewrite encode_tag_cons, length_app. unfold non_ascii_chars in *.
    cbn [filter length]. unfold is_ascii.
    destruct (N.leb_spec c 0x7F) as [Hle|Hgt].
    - destruct (N.ltb_spec 0x7F c); [lia|]. cbn [length Nat.add].
      f_equal. exact IH.
    - destruct (N.ltb_spec 0x7F c); [|lia]. cbn [length Nat.add].
      rewrite Nat.add_succ_r. f_equal. exact IH. }
  split; [exact H|]. split.
  - intros E. rewrite E in H. cbn [length] in H. lia.
  - intros E. destruct (non_ascii_chars s); [reflexivity|].
    cbn [length] in H. lia.
Qed.

(** X3: Encoding again what the Tag decoder found gives back the Tag
    characters of the text, and only them. *)
Theorem encode_tag_decode_tag (t : str) :
  encode_tag (decode_tag t) = filter tag_carrier t.
Proof.
  induction t as [|c t IH]; [reflexivity|].
  rewrite decode_tag_cons. cbn [filter].
  destruct (tag_carrier c) eqn:Hc; cbn [app]; [|exact IH].
  rewrite encode_tag_cons, IH.
  unfold tag_carrier, TAG_BASE in Hc. apply andb_true_iff in Hc.
  destruct Hc as [H1 H2]. apply N.leb_le in H1, H2.
  assert (Ha : is_ascii (c - TAG_BASE) = true)
    by (unfold is_ascii, TAG_BASE; apply N.leb_le; lia).
  rewrite Ha. cbn [app]. f_equal. unfold TAG_BASE. lia.
Qed.

(** ** The decoders see only their own alphabet *)

Lemma zw_bits_filter (text : str) :
  zw_bits (filter zw_carrier text) = zw_bits text.
Proof.
  induction text as [|c text IH]; [reflexivity|].
  cbn [filter]. destruct (zw_carrier c) eqn:Hc.
  - change (c :: filter zw_carrier text)
      with ([c] ++ filter zw_carrier text).
    change (c :: text) with ([c] ++ text).
    now rewrite !zw_bits_app, IH.
  - change (c :: text) with ([c] ++ text). rewrite zw_bits_app, IH.
    unfold zw_bits at 2. cbn [flat_map].
    now rewrite (zw_dict_get_other c Hc).
Qed.

(** X4: Both decoders ignore every character outside their alphabet: decoding
    a text is decoding the carrier characters it holds. *)
Theorem decoders_ignore_other_text (text : str) :
  decode_zero_width text = decode_zero_width (filter zw_carrier text)
  /\ decode_tag text = decode_tag (filter tag_carrier text).
Proof.
  split.
  - now rewrite !decode_zero_width_bits, zw_bits_filter.
  - induction text as [|c text IH]; [reflexivity|].
    cbn [filter]. destruct (tag_carrier c) eqn:Hc.
    + rewrite !decode_tag_cons, Hc. now rewrite IH.
    + rewrite decode_tag_cons, Hc. exact IH.
Qed.

(** ** The zero-width decoder, byte by byte *)

(** A binary digit, '0' or '1'. *)
Definition binary (b : char) : Prop := b = 48 \/ b = 49.

(** The digit a carrier character stands for. *)
Definition carrier_digit (c : char) : char := if c =? 0x200b then 48 else 49.

Lemma zw_bits_carriers (text : str) :
  zw_bits text = map carrier_digit (filter zw_carrier text).
Proof.
  induction text as [|c text IH]; [reflexivity|].
  change (c :: text) with ([c] ++ text). rewrite zw_bits_app, IH.
  unfold zw_bits. cbn [flat_map app filter]. rewrite zw_dict_get, app_nil_r.
  unfold zw_carrier, carrier_digit.
  destruct (c =? 0x200b) eqn:E1; cbn [orb map app]; [now rewrite E1|].
  destruct (c =? 0x200c); cbn [map app]; [now rewrite E1|reflexivity].
Qed.

Lemma zw_bits_binary (text : str) : Forall binary (zw_bits text).
Proof.
  rewrite zw_bits_carriers. apply Forall_map, Forall_forall.
  intros c _. unfold binary, carrier_digit. destruct (c =? 0x200b); auto.
Qed.

Lemma zw_bits_length (text : str) :
  length (zw_bits text) = length (filter zw_carrier text).
Proof. rewrite zw_bits_carriers. apply length_map. Qed.

(** Writing the digits back as carrier characters. *)
Lemma carriers_of_digits (t : str) :
  Forall (fun c => zw_carrier c = true) t ->
  flat_map (fun bit => dict_get ZERO_WIDTH_MAP bit) (map carrier_digit t) = t.
Proof.
  induction 1 as [|c t Hc _ IH]; [reflexivity|].
  cbn [map flat_map]. rewrite IH. unfold zw_carrier in Hc.
  unfold carrier_digit.
  destruct (N.eqb_spec c 0x200b) as [->|_]; [reflexivity|].
  destruct (N.eqb_spec c 0x200c) as [->|_]; [reflexivity|discriminate].
Qed.

(** Reasoning on a digit string eight digits at a time. *)
Lemma chunk_induction (P : str -> Prop) :
  (forall bits, (length bits < 8)%nat -> P bits) ->
  (forall chunk rest, length chunk = 8%nat -> P rest -> P (chunk ++ rest)) ->
  forall bits, P bits.
Proof.
  intros Hshort Hchunk bits.
  remember (length bits) as n eqn:Hn. revert bits Hn.
  induction n as [n IH] using lt_wf_ind. intros bits Hn.
  destruct (Nat.lt_ge_cases (length bits) 8) as [Hlt|Hge]; [now apply Hshort|].
  rewrite <- (firstn_skipn 8 bits). apply Hchunk.
  - rewrite length_firstn. lia.
  - apply (IH (length (skipn 8 bits))); [|reflexivity].
    rewrite length_skipn. lia.
Qed.

(** Eight binary digits always make one character, and [format] writes
    that character with the same eight digits. *)
Lemma byte_at_binary (chunk : str) :
  length chunk = 8%nat -> Forall binary chunk ->
  exists n, byte_at chunk 0 = [n] /\ format_08b n = chunk.
Proof.
  intros Hlen Hb.
  do 8 (destruct chunk as [|? chunk]; [discriminate|]).
  destruct chunk; [|discriminate]. clear Hlen.
  repeat match goal with
         | H : Forall _ (_ :: _) |- _ => inversion H; subst; clear H
         end.
  unfold binary in *.
  repeat match goal with
         | H : _ \/ _ |- _ => destruct H; subst
         end;
    (eexists; split; [vm_compute; reflexivity | reflexivity]).
Qed.

Lemma decode_bits_length (bits : str) :
  Forall binary bits -> length (decode_bits bits) = (length bits / 8)%nat.
Proof.
  induction bits as [bits Hshort | chunk rest Hlen IH] using chunk_induction;
    intros Hb.
  - rewrite decode_bits_short by assumption. now rewrite Nat.div_small.
  - apply Forall_app in Hb. destruct Hb as [Hc Hr].
    destruct (byte_at_binary chunk Hlen Hc) as (n & Hn & _).
    rewrite decode_bits_chunk, Hn, !length_app, Hlen, IH by assumption.
    cbn [length]. change 8%nat with (1 * 8)%nat at 2.
    rewrite Nat.div_add_l by lia. reflexivity.
Qed.

(** X5: The zero-width decoder returns one character for every eight carrier
    characters of the text, wherever they stand; up to seven carrier
    characters left over at the end are dropped. *)
Theorem decode_zero_width_length (text : str) :
  length (decode_zero_width text)
  = (length (filter zw_carrier text) / 8)%nat.
Proof.
  rewrite decode_zero_width_bits, decode_bits_length by apply zw_bits_binary.
  now rewrite zw_bits_length.
Qed.

Lemma format_decode_bits (bits : str) :
  Forall binary bits ->
  flat_map (fun c => format_08b c) (decode_bits bits)
  = firstn (8 * (length bits / 8)) bits.
Proof.
  induction bits as [bits Hshort | chunk rest Hlen IH] using chunk_induction;
    intros Hb.
  - rewrite decode_bits_short by assumption.
    now rewrite Nat.div_small by assumption.
  - apply Forall_app in Hb. destruct Hb as [Hc Hr].
    destruct (byte_at_binary chunk Hlen Hc) as (n & Hn & Hf).
    rewrite decode_bits_chunk, Hn by assumption.
    cbn [app flat_map]. rewrite Hf, IH by assumption.
    rewrite length_app, Hlen. change 8%nat with (1 * 8)%nat at 4.
    rewrite Nat.div_add_l by lia.
    replace (8 * (1 + length rest / 8))%nat
      with (length chunk + 8 * (length rest / 8))%nat by lia.
    now rewrite firstn_app_2.
Qed.

(** X6: Encoding again what the zero-width decoder found gives back the
    carrier characters of the text, cut to a whole number of bytes. *)
Theorem encode_zero_width_decode_zero_width (text : str) :
  encode_zero_width (decode_zero_width text)
  = firstn (8 * (length (filter zw_carrier text) / 8))
           (filter zw_carrier text).
Proof.
  rewrite decode_zero_width_bits. unfold encode_zero_width.
  rewrite format_decode_bits by apply zw_bits_binary.
  rewrite zw_bits_length, zw_bits_carriers, firstn_map.
  apply carriers_of_digits.
  assert (Hall : Forall (fun c => zw_carrier c = true) (filter zw_carrier text)).
  { apply Forall_forall. intros c Hc. apply filter_In in Hc. tauto. }
  rewrite <- (firstn_skipn (8 * (length (filter zw_carrier text) / 8))
                           (filter zw_carrier text)) in Hall.
  apply Forall_app in Hall. tauto.
Qed.

Lemma decode_bits_app (a b : str) :
  (length a mod 8 = 0)%nat ->
  decode_bits (a ++ b) = decode_bits a ++ decode_bits b.
Proof.
  induction a as [a Hshort | chunk rest Hlen IH] using chunk_induction;
    intros Hmod.
  - rewrite Nat.mod_small in Hmod by assumption.
    destruct a; [reflexivity | discriminate].
  - assert (Hrest : (length rest mod 8 = 0)%nat).
    { rewrite length_app, Hlen in Hmod.
      change 8%nat with (1 * 8)%nat in Hmod at 1.
      rewrite Nat.add_comm, Nat.Div0.mod_add in Hmod. exact Hmod. }
    rewrite <- app_assoc.
    rewrite (decode_bits_chunk chunk (rest ++ b)) by assumption.
    rewrite (decode_bits_chunk chunk rest) by assumption.
    rewrite (IH Hrest). apply app_assoc.
Qed.

(** X7: Decoding two texts put end to end is decoding each and joining the
    results, as long as the first text holds whole bytes of carrier
    characters. *)
Theorem decode_zero_width_app (t1 t2 : str) :
  (length (filter zw_carrier t1) mod 8 = 0)%nat ->
  decode_zero_width (t1 ++ t2) = decode_zero_width t1 ++ decode_zero_width t2.
Proof.
  intros H. rewrite !decode_zero_width_bits, zw_bits_app.
  apply decode_bits_app. now rewrite zw_bits_length.
Qed.

Lemma decode_zero_width_app_witness :
  decode_zero_width
    ((py "a" ++ encode_zero_width (py "x")) ++ (encode_zero_width (py "y") ++ py "b"))
  = decode_zero_width (py "a" ++ encode_zero_width (py "x"))
    ++ decode_zero_width (encode_zero_width (py "y") ++ py "b").
Proof.
  apply (decode_zero_width_app (py "a" ++ encode_zero_width (py "x"))).
  reflexivity.
Defined.

Lemma decode_zero_width_range (text : str) :
  Forall (fun c => c <= 0xFF) (decode_zero_width text).
Proof.
  unfold decode_zero_width. apply fold_left_invariant; [|constructor].
  intros a i Ha. now apply decode_zero_width_step_range.
Qed.

(** X8: A secret with a character above U+00FF never survives the zero-width
    round trip. *)
Theorem zero_width_round_trip_lossy (s : str) :
  Exists (fun c => 0xFF < c) s ->
  decode_zero_width (encode_zero_width s) <> s.
Proof.
  intros Hex Heq.
  pose proof (decode_zero_width_range (encode_zero_width s)) as Hr.
  rewrite Heq in Hr. apply Exists_exists in Hex.
  destruct Hex as (c & Hin & Hc).
  rewrite Forall_forall in Hr. specialize (Hr c Hin). lia.
Qed.

Lemma zero_width_round_trip_lossy_witness :
  decode_zero_width (encode_zero_width [104; 0x263A; 105])
  <> [104; 0x263A; 105].
Proof.
  apply zero_width_round_trip_lossy.
  apply Exists_cons_tl, Exists_cons_hd. reflexivity.
Defined.

(** * Further properties of [encode] and [decode] *)

(** ** The two alphabets do not meet *)

Lemma tag_carrier_not_zw (c : char) :
  tag_carrier c = true -> zw_carrier c = false.
Proof.
  unfold tag_carrier, zw_carrier, TAG_BASE. intros H.
  apply andb_true_iff in H. destruct H as [H _]. apply N.leb_le in H.
  apply orb_false_iff. split; apply N.eqb_neq; lia.
Qed.

Lemma zw_carrier_not_tag (c : char) :
  zw_carrier c = true -> tag_carrier c = false.
Proof.
  intros H. destruct (tag_carrier c) eqn:E; [|reflexivity].
  apply tag_carrier_not_zw in E. congruence.
Qed.

Lemma hidden_encoding_ZeroWidth (s : str) :
  hidden_encoding ZeroWidth s = encode_zero_width s.
Proof. reflexivity. Qed.

Lemma hidden_encoding_Tag (s : str) : hidden_encoding Tag s = encode_tag s.
Proof. reflexivity. Qed.

Lemma decode_zero_width_of_tag (s : str) :
  decode_zero_width (encode_tag s) = [].
Proof.
  rewrite decode_zero_width_bits, zw_bits_no_carrier; [reflexivity|].
  eapply Forall_impl; [|apply encode_tag_carrier].
  intros c. apply tag_carrier_not_zw.
Qed.

Lemma decode_tag_of_zero_width (s : str) :
  decode_tag (encode_zero_width s) = [].
Proof.
  apply decode_tag_no_carrier.
  eapply Forall_impl; [|apply encode_zero_width_carrier].
  intros c. apply zw_carrier_not_tag.
Qed.

(** What [decode] finds in an encoded text, for a secret the method can
    carry and a visible text without carrier characters of the method. *)
Lemma decode_of_encode (v s m p r : str) :
  no_carrier m v -> representable m s ->
  encode v s m p = Ok r -> decode r m = Ok s.
Proof.
  intros Hv Hrep He. apply encode_Ok in He.
  destruct He as (_ & _ & _ & Hm & pos & _ & _ & ->).
  rewrite decode_splice by assumption.
  destruct Hrep as [[-> Hs] | [-> Hs]].
  - rewrite decode_zero_width_method. f_equal.
    now apply decode_zero_width_encode.
  - rewrite decode_tag_method. f_equal. now apply decode_tag_encode.
Qed.

(** X9: Auto-detection finds the secret whichever method hid it: on a visible
    text without carrier characters of either alphabet, decoding the
    encoded text with "auto" gives the secret back. *)
Theorem auto_round_trip (v s m p : str) (pos : Z) :
  v <> [] ->
  (len v <= MAX_VISIBLE_LENGTH)%Z ->
  (len s <= MAX_SECRET_LENGTH)%Z ->
  representable m s ->
  find_injection_point v p = Ok pos ->
  no_carrier ZeroWidth v -> no_carrier Tag v ->
  exists r, encode v s m p = Ok r /\ decode r Auto = Ok s.
Proof.
  intros Hv Hlv Hls Hrep Hpos Hz Ht.
  assert (Hm : m = ZeroWidth \/ m = Tag) by (destruct Hrep as [[? _]|[? _]]; auto).
  eexists. split; [now apply (encode_succeeds v s m p pos)|].
  rewrite decode_auto_method.
  destruct Hrep as [[-> Hs] | [-> Hs]].
  - rewrite hidden_encoding_ZeroWidth.
    rewrite decode_zero_width_splice, decode_zero_width_encode by assumption.
    destruct s as [|c s]; [|reflexivity].
    now rewrite decode_tag_splice by assumption.
  - rewrite hidden_encoding_Tag.
    rewrite decode_zero_width_splice, decode_zero_width_of_tag by assumption.
    now rewrite decode_tag_splice, decode_tag_encode by assumption.
Qed.

Lemma auto_round_trip_witness :
  exists r, encode (py "Hello world") (py "secret") Tag FirstSpace = Ok r
            /\ decode r Auto = Ok (py "secret").
Proof.
  apply (auto_round_trip (py "Hello world") (py "secret") Tag FirstSpace 6%Z).
  - discriminate.
  - unfold len, MAX_VISIBLE_LENGTH. simpl. lia.
  - unfold len, MAX_SECRET_LENGTH. simpl. lia.
  - right. split; [reflexivity|]. repeat constructor; vm_compute; discriminate.
  - reflexivity.
  - unfold no_carrier. repeat constructor.
  - unfold no_carrier. repeat constructor.
Defined.

(** X10: Decoding with the other method finds nothing: a Tag-encoded text
    decodes to the empty string under "zero-width", and a zero-width-encoded
    text to the empty string under "tag", when the visible text holds no
    carrier character of the decoding method. *)
Theorem cross_method_decode_empty (v s p r : str) :
  (no_carrier ZeroWidth v -> encode v s Tag p = Ok r ->
     decode r ZeroWidth = Ok [])
  /\ (no_carrier Tag v -> encode v s ZeroWidth p = Ok r ->
        decode r Tag = Ok []).
Proof.
  split; intros Hv He; apply encode_Ok in He;
    destruct He as (_ & _ & _ & _ & pos & _ & _ & ->).
  - rewrite decode_zero_width_method, hidden_encoding_Tag.
    now rewrite decode_zero_width_splice, decode_zero_width_of_tag.
  - rewrite decode_tag_method, hidden_encoding_ZeroWidth.
    now rewrite decode_tag_splice, decode_tag_of_zero_width.
Qed.

Lemma cross_method_decode_empty_witness :
  decode (py "Hello " ++ encode_tag (py "test") ++ py "world") ZeroWidth
  = Ok []
  /\ decode (py "Hello world" ++ encode_zero_width (py "test") ++ []) Tag
     = Ok [].
Proof.
  split.
  - apply (proj1 (cross_method_decode_empty (py "Hello world") (py "test")
                                            FirstSpace _)).
    + unfold no_carrier. repeat constructor.
    + reflexivity.
  - apply (proj2 (cross_method_decode_empty (py "Hello world") (py "test")
                                            End _)).
    + unfold no_carrier. repeat constructor.
    + reflexivity.
Defined.

(** X11: No two secrets share an encoding: on a visible text without carrier
    characters of the method, two secrets the method can carry that give the
    same encoded text are the same secret. *)
Theorem encode_injective (v s1 s2 m p r : str) :
  no_carrier m v -> representable m s1 -> representable m s2 ->
  encode v s1 m p = Ok r -> encode v s2 m p = Ok r ->
  s1 = s2.
Proof.
  intros Hv H1 H2 E1 E2.
  pose proof (decode_of_encode v s1 m p r Hv H1 E1) as D1.
  pose proof (decode_of_encode v s2 m p r Hv H2 E2) as D2.
  congruence.
Qed.

Lemma encode_injective_witness : py "test" = py "test".
Proof.
  apply (encode_injective (py "Hello world") (py "test") (py "test") Tag End
           (py "Hello world" ++ encode_tag (py "test"))).
  - unfold no_carrier. repeat constructor.
  - right. split; [reflexivity|]. repeat constructor; vm_compute; discriminate.
  - right. split; [reflexivity|]. repeat constructor; vm_compute; discriminate.
  - reflexivity.
  - reflexivity.
Defined.

(** * Further properties of the resolver *)

(** X12: The char-n rule: the offset is n itself when 0 <= n <= len(text), and
    the error of the char branch otherwise; so the call with char-5 on a
    one-character text fails. *)
Theorem char_offset_rule (v : str) (n : Z) :
  find_injection_point v (CharOffset n)
  = (if (n <? 0)%Z || (len v <? n)%Z
     then Raise InvalidCharPosition
     else Ok n)
  /\ encode (py "a") (py "b") Tag (CharOffset 5) = Raise InvalidCharPosition.
Proof.
  split; [|reflexivity].
  unfold CharOffset at 1. rewrite find_injection_point_char.
  fold (CharOffset n). rewrite rule_number_CharOffset. unfold char_point.
  destruct (n <? 0)%Z eqn:E; [reflexivity|]. now rewrite E.
Qed.

Lemma hd_split_sep_cons (sep c : char) (s : str) :
  c <> sep ->
  hd [] (split_sep sep (c :: s)) = c :: hd [] (split_sep sep s).
Proof.
  intros Hc. cbn [split_sep]. apply N.eqb_neq in Hc. rewrite Hc.
  pose proof (split_sep_nonempty sep s) as Hne.
  destruct (split_sep sep s); [congruence | reflexivity].
Qed.

Lemma hd_split_sep_tail (sep : char) (a junk : str) :
  hd [] (split_sep sep (a ++ sep :: junk)) = hd [] (split_sep sep a).
Proof.
  induction a as [|c a IH].
  - cbn [app split_sep hd]. now rewrite N.eqb_refl.
  - destruct (N.eq_dec c sep) as [->|Hc].
    + cbn [app split_sep]. now rewrite N.eqb_refl.
    + cbn [app]. now rewrite !hd_split_sep_cons, IH by assumption.
Qed.

Lemma rule_number_tail (a b c d : char) (t junk : str) :
  a <> 45 -> b <> 45 -> c <> 45 -> d <> 45 ->
  rule_number (a :: b :: c :: d :: 45 :: t ++ 45 :: junk)
  = rule_number (a :: b :: c :: d :: 45 :: t).
Proof.
  intros Ha Hb Hc Hd. rewrite !rule_number_after_dash by assumption.
  now rewrite hd_split_sep_tail.
Qed.

(** X13: the word and char rules read their number between the first and
    the second dash only: a rule text followed by a dash and anything
    resolves to an offset exactly when the rule text alone does, and to
    the same offset. *)
Theorem rule_tail_ignored (v t junk : str) (pos : Z) :
  (find_injection_point v (py "word-" ++ t ++ 45 :: junk) = Ok pos
   <-> find_injection_point v (py "word-" ++ t) = Ok pos)
  /\ (find_injection_point v (py "char-" ++ t ++ 45 :: junk) = Ok pos
      <-> find_injection_point v (py "char-" ++ t) = Ok pos).
Proof.
  split.
  - rewrite !find_injection_point_word.
    change (py "word-") with [119; 111; 114; 100; 45]. cbn [app].
    rewrite rule_number_tail by discriminate. reflexivity.
  - rewrite !find_injection_point_char.
    change (py "char-") with [99; 104; 97; 114; 45]. cbn [app].
    rewrite rule_number_tail by discriminate. reflexivity.
Qed.

(** X14: Whatever the rule text, an offset the resolver returns is an insertion
    index of the visible text: between 0 and its length. *)
Theorem injection_point_in_bounds (v p : str) (pos : Z) :
  find_injection_point v p = Ok pos -> (0 <= pos <= len v)%Z.
Proof. apply find_injection_point_range. Qed.

Lemma injection_point_in_bounds_witness :
  (0 <= 9 <= len (py "The quick brown fox"))%Z.
Proof.
  apply (injection_point_in_bounds (py "The quick brown fox") (WordIndex 2)).
  reflexivity.
Defined.

(** The errors the resolver can raise. *)
Lemma find_injection_point_errors (v p : str) (e : ValueError) :
  find_injection_point v p = Raise e ->
  e = NoWhitespaceFound \/ e = InvalidWordNumber \/ e = InvalidCharPosition
  \/ e = UnknownInjectionPoint.
Proof.
  unfold find_injection_point, word_point, char_point.
  repeat match goal with
         | |- context [if ?b then _ else _] => destruct b
         | |- context [match ?x with _ => _ end] => destruct x
         end;
    intros H; inversion H; auto.
Qed.

(** Settles one case of the checks of [encode]. *)
Ltac error_cases :=
  repeat split; intros;
  repeat match goal with
         | H : _ /\ _ |- _ => destruct H
         | H : exists _, _ |- _ => destruct H
         end;
  try congruence; try discriminate; try lia; eauto;
  try match goal with
      | H : Raise _ = Raise _ |- _ => inversion H; subst; reflexivity
      end.

(** X15: The order of the checks of [encode]: an empty visible text is reported
    first, then a visible text that is too long, then a secret that is too
    long, then a failure of the placement rule, and an unknown method last,
    only when the rule resolves. *)
Theorem encode_error_precedence (v s m p : str) :
  (encode v s m p = Raise EmptyVisibleText <-> v = [])
  /\ (encode v s m p = Raise VisibleTextTooLong
      <-> v <> [] /\ (MAX_VISIBLE_LENGTH < len v)%Z)
  /\ (encode v s m p = Raise SecretTooLong
      <-> v <> [] /\ (len v <= MAX_VISIBLE_LENGTH)%Z
          /\ (MAX_SECRET_LENGTH < len s)%Z)
  /\ (forall e, find_injection_point v p = Raise e ->
        v <> [] -> (len v <= MAX_VISIBLE_LENGTH)%Z ->
        (len s <= MAX_SECRET_LENGTH)%Z ->
        encode v s m p = Raise e)
  /\ (encode v s m p = Raise UnknownEncodingMethod
      <-> v <> [] /\ (len v <= MAX_VISIBLE_LENGTH)%Z
          /\ (len s <= MAX_SECRET_LENGTH)%Z
          /\ (exists pos, find_injection_point v p = Ok pos)
          /\ m <> ZeroWidth /\ m <> Tag).
Proof.
  unfold encode, ZeroWidth, Tag.
  destruct v as [|c0 v0] eqn:Ev; [error_cases|].
  rewrite <- Ev. assert (Hv : v <> []) by (rewrite Ev; discriminate).
  clear Ev c0 v0.
  destruct (Z.ltb_spec MAX_VISIBLE_LENGTH (len v)) as [H1|H1]; [error_cases|].
  destruct (Z.ltb_spec MAX_SECRET_LENGTH (len s)) as [H2|H2]; [error_cases|].
  destruct (find_injection_point v p) as [pos|e0] eqn:Hp; cbn [bind].
  - destruct (str_eqb m (py "zero-width")) eqn:Ez; cbn [bind];
      [apply str_eqb_eq in Ez; error_cases|].
    destruct (str_eqb m (py "tag")) eqn:Et; cbn [bind];
      [apply str_eqb_eq in Et; error_cases|].
    apply str_eqb_neq in Ez, Et. error_cases.
  - destruct (find_injection_point_errors v p e0 Hp) as [->|[->|[->| ->]]];
      error_cases.
Qed.

Lemma encode_error_precedence_witness :
  encode (py "Helloworld") (py "x") (py "rot13") FirstSpace
  = Raise NoWhitespaceFound.
Proof.
  apply (proj1 (proj2 (proj2 (proj2
           (encode_error_precedence (py "Helloworld") (py "x") (py "rot13")
                                    FirstSpace))))).
  - reflexivity.
  - discriminate.
  - unfold len, MAX_VISIBLE_LENGTH. simpl. lia.
  - unfold len, MAX_SECRET_LENGTH. simpl. lia.
Defined.

(** * Where the carrier goes *)

Lemma splice_length (v carrier : str) (k : nat) :
  length (splice v carrier k) = (length v + length carrier)%nat.
Proof.
  unfold splice. rewrite !length_app.
  pose proof (f_equal (@length char) (firstn_skipn k v)) as H.
  rewrite length_app in H. lia.
Qed.

Lemma encode_zero_width_length (s : str) :
  length (encode_zero_width s) = list_sum (map format_width s).
Proof.
  rewrite encode_zero_width_bits.
  induction s as [|c s IH]; [reflexivity|].
  cbn [flat_map map list_sum]. rewrite length_app, IH. f_equal.
  unfold big_endian_bits. now rewrite !length_map, length_rev, length_seq.
Qed.

Lemma encode_tag_length (s : str) :
  length (encode_tag s) = length (filter is_ascii s).
Proof.
  induction s as [|c s IH]; [reflexivity|].
  rewrite encode_tag_cons. cbn [filter].
  destruct (is_ascii c); cbn [app length]; [f_equal|]; exact IH.
Qed.

(** X16: The encoded text is the visible text plus the carrier and nothing
    else: its length is the sum of theirs.  The zero-width carrier has
    [max(8, bit length)] characters per secret character, the Tag carrier
    one character per ASCII character of the secret. *)
Theorem encoded_length (v s m p r : str) :
  (encode v s m p = Ok r ->
     length r = (length v + length (hidden_encoding m s))%nat)
  /\ length (hidden_encoding ZeroWidth s) = list_sum (map format_width s)
  /\ length (hidden_encoding Tag s) = length (filter is_ascii s).
Proof.
  split; [|split].
  - intros He. apply encode_Ok in He.
    destruct He as (_ & _ & _ & _ & pos & _ & _ & ->).
    apply splice_length.
  - apply encode_zero_width_length.
  - apply encode_tag_length.
Qed.

Lemma encoded_length_witness :
  length (py "Hello " ++ encode_tag (py "test") ++ py "world")
  = (length (py "Hello world") + length (hidden_encoding Tag (py "test")))%nat.
Proof.
  apply (proj1 (encoded_length (py "Hello world") (py "test") Tag FirstSpace _)).
  reflexivity.
Defined.

Lemma splice_at_end (v carrier : str) :
  splice v carrier (length v) = v ++ carrier.
Proof.
  unfold splice. now rewrite firstn_all, skipn_all, app_nil_r.
Qed.

Lemma splice_at_start (v carrier : str) : splice v carrier 0 = carrier ++ v.
Proof. reflexivity. Qed.

Lemma find_injection_point_CharOffset (v : str) (n : Z) :
  (0 <= n <= len v)%Z -> find_injection_point v (CharOffset n) = Ok n.
Proof.
  intros H. unfold CharOffset at 1. rewrite find_injection_point_char.
  fold (CharOffset n). rewrite rule_number_CharOffset. unfold char_point.
  destruct (Z.ltb_spec n 0); [lia|].
  destruct (Z.ltb_spec n 0); [lia|].
  destruct (Z.ltb_spec (len v) n); [lia|]. reflexivity.
Qed.

(** X17: With the rule "end" the carrier is appended to the visible text, and
    with "char-0" it is put in front of it. *)
Theorem encode_at_ends (v s m : str) :
  v <> [] ->
  (len v <= MAX_VISIBLE_LENGTH)%Z ->
  (len s <= MAX_SECRET_LENGTH)%Z ->
  m = ZeroWidth \/ m = Tag ->
  encode v s m End = Ok (v ++ hidden_encoding m s)
  /\ encode v s m (CharOffset 0) = Ok (hidden_encoding m s ++ v).
Proof.
  intros Hv Hlv Hls Hm. split.
  - rewrite (encode_succeeds v s m End (len v)) by auto.
    unfold len. now rewrite Nat2Z.id, splice_at_end.
  - rewrite (encode_succeeds v s m (CharOffset 0) 0%Z); auto.
    apply find_injection_point_CharOffset. unfold len. lia.
Qed.

Lemma encode_at_ends_witness :
  encode (py "Hello world") (py "test") Tag End
  = Ok (py "Hello world" ++ hidden_encoding Tag (py "test"))
  /\ encode (py "Hello world") (py "test") Tag (CharOffset 0)
     = Ok (hidden_encoding Tag (py "test") ++ py "Hello world").
Proof.
  apply (encode_at_ends (py "Hello world") (py "test") Tag).
  - discriminate.
  - unfold len, MAX_VISIBLE_LENGTH. simpl. lia.
  - unfold len, MAX_SECRET_LENGTH. simpl. lia.
  - now right.
Defined.

(** X18: With the rule "first-space" the carrier sits right after the first
    whitespace character of the visible text. *)
Theorem first_space_placement (v s m r : str) :
  encode v s m FirstSpace = Ok r ->
  exists pre c post,
    v = pre ++ c :: post /\ Forall nonspace pre /\ isspace c = true
    /\ r = pre ++ c :: hidden_encoding m s ++ post.
Proof.
  intros He. apply encode_Ok in He.
  destruct He as (_ & _ & _ & _ & pos & Hpos & _ & ->).
  rewrite find_injection_point_first_space in Hpos.
  pose proof (first_space_from_spec v 0) as H.
  destruct (first_space_from v 0) as [q|]; [|discriminate].
  destruct H as (pre & c & post & Hv & Hpre & Hc & Hq).
  inversion Hpos; subst q pos. exists pre, c, post.
  repeat split; auto.
  replace (Z.to_nat (Z.of_nat 0 + len pre + 1)) with (length (pre ++ [c]))
    by (rewrite length_app; unfold len; cbn [length]; lia).
  rewrite Hv. change (pre ++ c :: post) with (pre ++ [c] ++ post).
  rewrite app_assoc. unfold splice.
  rewrite firstn_app, skipn_app, firstn_all, skipn_all, Nat.sub_diag.
  cbn [firstn skipn app]. rewrite app_nil_r, <- app_assoc. reflexivity.
Qed.

Lemma first_space_placement_witness :
  exists pre c post,
    py "Hello world" = pre ++ c :: post /\ Forall nonspace pre
    /\ isspace c = true
    /\ py "Hello " ++ encode_tag (py "test") ++ py "world"
       = pre ++ c :: hidden_encoding Tag (py "test") ++ post.
Proof.
  apply (first_space_placement (py "Hello world") (py "test") Tag).
  reflexivity.
Defined.

(** ** Hiding two secrets one after the other *)

Lemma hidden_encoding_app (m s1 s2 : str) :
  hidden_encoding m (s1 ++ s2) = hidden_encoding m s1 ++ hidden_encoding m s2.
Proof.
  unfold hidden_encoding.
  destruct (str_eqb m (py "zero-width")); [apply encode_zero_width_app|].
  destruct (str_eqb m (py "tag")); [|reflexivity].
  unfold encode_tag. apply flat_map_app.
Qed.

Lemma representable_app (m s1 s2 : str) :
  representable m s1 -> representable m s2 -> representable m (s1 ++ s2).
Proof.
  intros [[-> H1]|[-> H1]] [[E H2]|[E H2]]; try discriminate E.
  - left. split; [reflexivity | now apply Forall_app].
  - right. split; [reflexivity | now apply Forall_app].
Qed.

Lemma decode_hidden_encoding (m s : str) :
  representable m s -> decode (hidden_encoding m s) m = Ok s.
Proof.
  intros [[-> Hs]|[-> Hs]].
  - rewrite decode_zero_width_method. f_equal.
    now apply decode_zero_width_encode.
  - rewrite decode_tag_method. f_equal. now apply decode_tag_encode.
Qed.

(** X19: Encoding a second secret at the end of an already encoded text puts
    the two carriers side by side: the result is what encoding the two
    secrets joined would give, and it decodes to the two secrets joined. *)
Theorem encode_twice_at_end (v s1 s2 m r1 r2 : str) :
  encode v s1 m End = Ok r1 ->
  encode r1 s2 m End = Ok r2 ->
  r2 = v ++ hidden_encoding m (s1 ++ s2)
  /\ (no_carrier m v -> representable m s1 -> representable m s2 ->
      decode r2 m = Ok (s1 ++ s2)).
Proof.
  intros E1 E2. apply encode_Ok in E1, E2.
  destruct E1 as (_ & _ & _ & Hm & pos1 & Hp1 & _ & ->).
  destruct E2 as (_ & _ & _ & _ & pos2 & Hp2 & _ & ->).
  rewrite find_injection_point_end in Hp1, Hp2.
  inversion Hp1; subst pos1. inversion Hp2; subst pos2.
  unfold len. rewrite !Nat2Z.id, !splice_at_end.
  rewrite hidden_encoding_app, <- app_assoc. split; [reflexivity|].
  intros Hv H1 H2.
  rewrite <- hidden_encoding_app, <- splice_at_end.
  rewrite decode_splice by assumption.
  apply decode_hidden_encoding. now apply representable_app.
Qed.

Lemma encode_twice_at_end_witness :
  (py "Hi" ++ encode_tag (py "a")) ++ encode_tag (py "b")
  = py "Hi" ++ hidden_encoding Tag (py "a" ++ py "b")
  /\ decode ((py "Hi" ++ encode_tag (py "a")) ++ encode_tag (py "b")) Tag
     = Ok (py "a" ++ py "b").
Proof.
  destruct (encode_twice_at_end (py "Hi") (py "a") (py "b") Tag
              (py "Hi" ++ encode_tag (py "a"))
              ((py "Hi" ++ encode_tag (py "a")) ++ encode_tag (py "b"))
              eq_refl eq_refl) as [H1 H2].
  split; [exact H1|]. apply H2.
  - unfold no_carrier. repeat constructor.
  - right. split; [reflexivity|]. repeat constructor; vm_compute; discriminate.
  - right. split; [reflexivity|]. repeat constructor; vm_compute; discriminate.
Defined.

(** * Word boundaries *)

(** A span of a text: it is not empty, it holds no whitespace, and the
    text stops or goes on with whitespace right after it. *)
Definition word_span_of (V : str) (se : nat * nat) : Prop :=
  (fst se < snd se <= length V)%nat
  /\ (forall i, (fst se <= i < snd se)%nat ->
        exists c, nth_error V i = Some c /\ isspace c = false)
  /\ stops isword (skipn (snd se) V).

Lemma word_spans_boundaries (n : nat) :
  forall s, (length s <= n)%nat ->
  forall pre,
    Forall (word_span_of (pre ++ s)) (word_spans_from s (length pre) None).
Proof.
  induction n as [|n IH]; intros s Hlen pre;
    rewrite word_spans_unfold;
    destruct (word_of s) as [|c w] eqn:Hw; try constructor;
    rewrite <- Hw;
    (assert (Hne : word_of s <> []) by (rewrite Hw; discriminate));
    (assert (Hlt : (length (rest_of s) < length s)%nat)
      by (now apply rest_of_shorter));
    try lia.
  - (* the first word *)
    assert (HV : pre ++ s = (pre ++ gap_of s) ++ word_of s ++ rest_of s)
      by (now rewrite <- app_assoc, gap_word_rest).
    assert (Hwlen : (0 < length (word_of s))%nat)
      by (rewrite Hw; cbn [length]; lia).
    unfold word_span_of. cbn [fst snd]. rewrite HV.
    rewrite <- (length_app pre (gap_of s)).
    split; [|split].
    + rewrite !length_app. lia.
    + intros i Hi.
      rewrite nth_error_app2 by lia.
      rewrite nth_error_app1 by lia.
      destruct (nth_error (word_of s) (i - length (pre ++ gap_of s)))
        as [d|] eqn:Hd.
      * exists d. split; [reflexivity|].
        apply nth_error_In in Hd.
        pose proof (take_while_all isword (drop_while isspace s)) as Hall.
        rewrite Forall_forall in Hall. specialize (Hall d Hd).
        unfold isword in Hall. now apply negb_true_iff in Hall.
      * apply nth_error_None in Hd. lia.
    + rewrite skipn_app, skipn_all2 by lia.
      replace (length (pre ++ gap_of s) + length (word_of s)
               - length (pre ++ gap_of s))%nat
        with (length (word_of s) + 0)%nat by lia.
      rewrite skipn_app, skipn_all2 by lia.
      replace (length (word_of s) + 0 - length (word_of s))%nat with 0%nat
        by lia.
      cbn [app skipn]. apply rest_of_stops.
  - (* the other words *)
    specialize (IH (rest_of s) ltac:(lia) (pre ++ gap_of s ++ word_of s)).
    rewrite <- !app_assoc, gap_word_rest in IH.
    rewrite !length_app, !Nat.add_assoc in IH. exact IH.
Qed.

Lemma word_point_boundary (v : str) (n pos : Z) :
  word_point v n = Ok pos ->
  exists se, word_span_of v se /\ pos = Z.of_nat (snd se).
Proof.
  rewrite word_point_spec.
  destruct ((n <? 1)%Z || (len (split_ws v) <? n)%Z) eqn:Hguard;
    [discriminate|].
  apply orb_false_iff in Hguard. destruct Hguard as [H1 H2].
  apply Z.ltb_ge in H1, H2. unfold len in H2.
  intros H. inversion H; subst pos. unfold nth_word_end.
  exists (nth (Z.to_nat n - 1) (word_spans v) (0, 0)%nat).
  split; [|reflexivity].
  pose proof (word_spans_boundaries (length v) v (Nat.le_refl _) []) as Hall.
  cbn [app length] in Hall. fold (word_spans v) in Hall.
  rewrite Forall_forall in Hall. apply Hall, nth_In.
  rewrite word_spans_length. lia.
Qed.

(** X20: The offset of the rule word-n is a word boundary: it is at least 1,
    the character just before it is not whitespace, and the character at
    it, when there is one, is whitespace. *)
Theorem word_rule_boundary (v : str) (n pos : Z) :
  find_injection_point v (WordIndex n) = Ok pos ->
  (1 <= pos <= len v)%Z
  /\ (exists c, nth_error v (Z.to_nat pos - 1) = Some c /\ isspace c = false)
  /\ (forall c, nth_error v (Z.to_nat pos) = Some c -> isspace c = true).
Proof.
  unfold WordIndex at 1. rewrite find_injection_point_word.
  fold (WordIndex n). rewrite rule_number_WordIndex.
  destruct (n <? 0)%Z; [discriminate|]. intros H.
  apply word_point_boundary in H.
  destruct H as ([b e] & (Hbe & Hin & Hstop) & ->). cbn [fst snd] in *.
  rewrite Nat2Z.id. split; [unfold len; lia|]. split.
  - apply Hin. lia.
  - intros c Hc.
    rewrite <- (firstn_skipn e v) in Hc.
    rewrite nth_error_app2 in Hc by (rewrite length_firstn; lia).
    rewrite length_firstn, Nat.min_l, Nat.sub_diag in Hc by lia.
    destruct (skipn e v) as [|d t]; [discriminate|].
    cbn [nth_error] in Hc. inversion Hc; subst d.
    cbn [stops] in Hstop. unfold isword in Hstop.
    now apply negb_false_iff in Hstop.
Qed.

Lemma word_rule_boundary_witness :
  (1 <= 9 <= len (py "The quick brown fox"))%Z
  /\ (exists c, nth_error (py "The quick brown fox") (Z.to_nat 9 - 1) = Some c
                /\ isspace c = false)
  /\ (forall c, nth_error (py "The quick brown fox") (Z.to_nat 9) = Some c ->
                isspace c = true).
Proof.
  apply (word_rule_boundary (py "The quick brown fox") 2 9). reflexivity.
Defined.

(** ** Texts without words, texts of one word *)

Lemma split_ws_all_space (v : str) :
  Forall (fun c => isspace c = true) v -> split_ws v = [].
Proof.
  intros H. unfold split_ws. rewrite <- (app_nil_r v).
  now rewrite split_ws_from_gap.
Qed.

(** X21: A text made of whitespace only has no word: every rule word-n fails on
    it, while first-space resolves to offset 1. *)
Theorem whitespace_only_text (v : str) (n : Z) :
  v <> [] -> Forall (fun c => isspace c = true) v ->
  find_injection_point v (WordIndex n) = Raise InvalidWordNumber
  /\ find_injection_point v FirstSpace = Ok 1%Z.
Proof.
  intros Hv Hall. split.
  - unfold WordIndex at 1. rewrite find_injection_point_word.
    fold (WordIndex n). rewrite rule_number_WordIndex.
    destruct (n <? 0)%Z; [reflexivity|].
    rewrite word_point_spec, split_ws_all_space by assumption.
    unfold len. cbn [length].
    destruct (Z.ltb_spec n 1); [reflexivity|].
    destruct (Z.ltb_spec (Z.of_nat 0) n); [reflexivity|lia].
  - rewrite find_injection_point_first_space.
    destruct v as [|c v]; [congruence|].
    inversion Hall as [|? ? Hc _]; subst.
    cbn [first_space_from]. now rewrite Hc.
Qed.

Lemma whitespace_only_text_witness :
  find_injection_point (py "   ") (WordIndex 1) = Raise InvalidWordNumber
  /\ find_injection_point (py "   ") FirstSpace = Ok 1%Z.
Proof.
  apply (whitespace_only_text (py "   ") 1).
  - discriminate.
  - repeat constructor.
Defined.

Lemma single_word_split (v : str) :
  v <> [] -> Forall nonspace v ->
  split_ws v = [v] /\ word_spans v = [(0, length v)%nat].
Proof.
  intros Hv Hall.
  assert (Hw : Forall (fun c => isword c = true) v).
  { eapply Forall_impl; [|exact Hall]. intros c Hc.
    unfold isword, nonspace in *. now rewrite Hc. }
  split.
  - unfold split_ws. rewrite <- (app_nil_r v) at 1.
    rewrite split_ws_from_word; auto; exact I.
  - unfold word_spans. destruct v as [|c v]; [congruence|].
    inversion Hw as [|? ? Hc Hw']; subst.
    cbn [word_spans_from]. unfold isword in Hc.
    apply negb_true_iff in Hc. rewrite Hc.
    rewrite <- (app_nil_r v) at 1.
    rewrite word_spans_from_word; auto; exact I.
Qed.

(** X22: On a text without whitespace, a single word, the rule word-1 resolves
    to the end of the text, every other word number fails, and first-space
    fails. *)
Theorem single_word_text (v : str) (n : Z) :
  v <> [] -> Forall nonspace v ->
  find_injection_point v (WordIndex n)
  = (if (n =? 1)%Z then Ok (len v) else Raise InvalidWordNumber)
  /\ find_injection_point v FirstSpace = Raise NoWhitespaceFound.
Proof.
  intros Hv Hall. destruct (single_word_split v Hv Hall) as [Hsplit Hspans].
  split.
  - unfold WordIndex at 1. rewrite find_injection_point_word.
    fold (WordIndex n). rewrite rule_number_WordIndex.
    destruct (Z.ltb_spec n 0).
    { destruct (Z.eqb_spec n 1); [lia|reflexivity]. }
    rewrite word_point_spec, Hsplit. unfold len. cbn [length].
    destruct (Z.eqb_spec n 1) as [->|Hn].
    + cbn [Z.ltb orb]. unfold nth_word_end. rewrite Hspans. reflexivity.
    + destruct (Z.ltb_spec n 1); [reflexivity|].
      destruct (Z.ltb_spec (Z.of_nat 1) n); [reflexivity|lia].
  - rewrite find_injection_point_first_space.
    pose proof (first_space_from_spec v 0) as H.
    destruct (first_space_from v 0) as [q|]; [|reflexivity].
    destruct H as (pre & c & post & -> & _ & Hc & _).
    apply Forall_app in Hall. destruct Hall as [_ Hall].
    inversion Hall as [|? ? Hn _]. unfold nonspace in Hn. congruence.
Qed.

Lemma single_word_text_witness :
  find_injection_point (py "Helloworld") (WordIndex 1)
  = (if (1 =? 1)%Z then Ok (len (py "Helloworld"))
     else Raise InvalidWordNumber)
  /\ find_injection_point (py "Helloworld") FirstSpace
     = Raise NoWhitespaceFound.
Proof.
  apply (single_word_text (py "Helloworld") 1).
  - discriminate.
  - repeat constructor.
Defined.

(** ** Later words, later offsets *)

(** Each span starts at or after [from], and each span ends before the
    next one starts. *)
Fixpoint spans_in_order (from : nat) (l : list (nat * nat)) : Prop :=
  match l with
  | [] => True
  | se :: l' => (from <= fst se < snd se)%nat /\ spans_in_order (snd se) l'
  end.

Lemma word_spans_in_order (n : nat) :
  forall s, (length s <= n)%nat ->
  forall pos, spans_in_order pos (word_spans_from s pos None).
Proof.
  induction n as [|n IH]; intros s Hlen pos;
    rewrite word_spans_unfold;
    destruct (word_of s) as [|c w] eqn:Hw; try exact I;
    rewrite <- Hw;
    (assert (Hne : word_of s <> []) by (rewrite Hw; discriminate));
    (assert (Hlt : (length (rest_of s) < length s)%nat)
      by (now apply rest_of_shorter));
    [lia|].
  cbn zeta. cbn [spans_in_order fst snd]. split.
  - rewrite Hw. cbn [length]. lia.
  - apply IH. lia.
Qed.

Lemma spans_in_order_nth (l : list (nat * nat)) :
  forall from i j,
    spans_in_order from l -> (i < j < length l)%nat ->
    (snd (nth i l (0, 0)%nat) < snd (nth j l (0, 0)%nat))%nat.
Proof.
  assert (Hlow : forall l from j,
             spans_in_order from l -> (j < length l)%nat ->
             (from < snd (nth j l (0, 0)%nat))%nat).
  { clear l. induction l as [|se l IH]; intros from j Hl Hj;
      cbn [length] in Hj; [lia|].
    cbn [spans_in_order] in Hl. destruct Hl as [Hse Hl].
    destruct j as [|j]; cbn [nth]; [lia|].
    specialize (IH (snd se) j Hl ltac:(lia)). lia. }
  induction l as [|se l IH]; intros from i j Hl Hij;
    cbn [length] in Hij; [lia|].
  cbn [spans_in_order] in Hl. destruct Hl as [Hse Hl].
  destruct j as [|j]; [lia|]. destruct i as [|i]; cbn [nth].
  - apply (Hlow l (snd se) j Hl). lia.
  - apply (IH (snd se) i j Hl). lia.
Qed.

Lemma find_injection_point_WordIndex_Ok (v : str) (n pos : Z) :
  find_injection_point v (WordIndex n) = Ok pos ->
  (1 <= n <= len (split_ws v))%Z /\ pos = nth_word_end v n.
Proof.
  unfold WordIndex at 1. rewrite find_injection_point_word.
  fold (WordIndex n). rewrite rule_number_WordIndex.
  destruct (n <? 0)%Z; [discriminate|]. rewrite word_point_spec.
  destruct ((n <? 1)%Z || (len (split_ws v) <? n)%Z) eqn:Hguard;
    [discriminate|].
  apply orb_false_iff in Hguard. destruct Hguard as [H1 H2].
  apply Z.ltb_ge in H1, H2. intros H. inversion H. split; [lia|reflexivity].
Qed.

(** X23: The offsets of the word rules grow with the word number: a later
    word resolves to a strictly later offset. *)
Theorem word_rule_increasing (v : str) (n1 n2 pos1 pos2 : Z) :
  find_injection_point v (WordIndex n1) = Ok pos1 ->
  find_injection_point v (WordIndex n2) = Ok pos2 ->
  (n1 < n2)%Z -> (pos1 < pos2)%Z.
Proof.
  intros H1 H2 Hlt.
  apply find_injection_point_WordIndex_Ok in H1, H2.
  destruct H1 as [Hn1 ->]. destruct H2 as [Hn2 ->].
  unfold nth_word_end, len in *. apply Nat2Z.inj_lt.
  apply (spans_in_order_nth (word_spans v) 0).
  - apply (word_spans_in_order (length v)). lia.
  - rewrite word_spans_length. lia.
Qed.

Lemma word_rule_increasing_witness : (3 < 9)%Z.
Proof.
  apply (word_rule_increasing (py "The quick brown fox") 1 2 3 9);
    [reflexivity | reflexivity | lia].
Defined.

(** * analysis.py *)

(** [format(n, '04X')]: upper-case hexadecimal digits, zero-padded on
    the left to a minimum width of four. *)
Definition hex_digit (d : N) : char := if d <? 10 then 48 + d else 55 + d.

Fixpoint hex_digits (fuel : nat) (n : N) (acc : str) : str :=
  match fuel with
  | O => acc
  | S fuel' =>
      let acc' := hex_digit (n mod 16) :: acc in
      if n <? 16 then acc' else hex_digits fuel' (n / 16) acc'
  end.

Definition format_04X (n : N) : str :=
  let h := hex_digits (S (N.to_nat (N.size n))) n [] in
  repeat 48 (4 - length h) ++ h.

Definition analyze_header : str :=
  py "Analyzing text for hidden or non-standard Unicode characters..." ++ [10].

Definition analyze_nothing_found : str :=
  py "No common invisible formatting or control characters were found.".

Section Analysis.

(** The two tables of the interpreter's Unicode database the function
    reads: [unicodedata.category], and [unicodedata.name], which has no
    entry for some characters. *)
Variable category : char -> str.
Variable name : char -> option str.

(** [category in ['Cc', 'Cf', 'Cs']] *)
Definition flagged (c : char) : bool :=
  existsb (str_eqb (category c)) [py "Cc"; py "Cf"; py "Cs"].

(** [unicodedata.name(char, 'UNKNOWN CHARACTER')] *)
Definition char_name (c : char) : str :=
  match name c with
  | Some s => s
  | None => py "UNKNOWN CHARACTER"
  end.

(** The line printed for the character [c] found at position [i]. *)
Definition found_line (i : nat) (c : char) : str :=
  py "  - Found at position " ++ str_of_N (N.of_nat i)
  ++ py ": U+" ++ format_04X c ++ py " (" ++ char_name c ++ py ")".

(** One round of the loop; the state is the flag [found] and the lines
    printed so far. *)
Definition analyze_step (st : bool * list str) (ic : nat * char)
  : bool * list str :=
  if flagged (snd ic)
  then (true, snd st ++ [found_line (fst ic) (snd ic)])
  else st.

(** [analyze]: the arguments of its calls to [print], in order. *)
Definition analyze (text_to_analyze : str) : list str :=
  let st :=
    fold_left analyze_step
              (combine (seq 0 (length text_to_analyze)) text_to_analyze)
              (false, [analyze_header]) in
  if fst st then snd st else snd st ++ [analyze_nothing_found].

(** The lines for the flagged characters of [t], the first of which
    stands at position [k]. *)
Fixpoint found_lines (k : nat) (t : str) : list str :=
  match t with
  | [] => []
  | c :: t' =>
      (if flagged c then [found_line k c] else []) ++ found_lines (S k) t'
  end.

Lemma analyze_loop (t : str) :
  forall k found out,
    fold_left analyze_step (combine (seq k (length t)) t) (found, out)
    = (found || existsb flagged t, out ++ found_lines k t).
Proof.
  induction t as [|c t IH]; intros k found out.
  - cbn [length seq combine fold_left existsb found_lines].
    now rewrite orb_false_r, app_nil_r.
  - cbn [length seq combine fold_left existsb found_lines].
    unfold analyze_step at 2. cbn [fst snd].
    destruct (flagged c); rewrite IH.
    + cbn [orb app]. rewrite orb_true_r, <- app_assoc. reflexivity.
    + cbn [orb app]. reflexivity.
Qed.

Lemma analyze_lines (text : str) :
  analyze text
  = analyze_header :: found_lines 0 text
    ++ (if existsb flagged text then [] else [analyze_nothing_found]).
Proof.
  unfold analyze. rewrite analyze_loop. cbn [fst snd orb app].
  destruct (existsb flagged text); [now rewrite app_nil_r | reflexivity].
Qed.

Lemma found_lines_length (t : str) :
  forall k, length (found_lines k t) = length (filter flagged t).
Proof.
  induction t as [|c t IH]; intros k; [reflexivity|].
  cbn [found_lines filter]. rewrite length_app, IH.
  destruct (flagged c); reflexivity.
Qed.

Lemma found_lines_not_nothing (t : str) :
  forall k, ~ In analyze_nothing_found (found_lines k t).
Proof.
  induction t as [|c t IH]; intros k Hin; [exact Hin|].
  cbn [found_lines] in Hin. apply in_app_or in Hin.
  destruct Hin as [Hin|Hin]; [|exact (IH _ Hin)].
  destruct (flagged c); [|exact Hin].
  destruct Hin as [Heq|[]]. discriminate Heq.
Qed.

(** The flagged characters of a text with their positions, in order. *)
Definition flagged_positions (k : nat) (t : str) : list (nat * char) :=
  filter (fun ic => flagged (snd ic)) (combine (seq k (length t)) t).

Lemma found_lines_positions (t : str) :
  forall k,
    found_lines k t
    = map (fun ic => found_line (fst ic) (snd ic)) (flagged_positions k t).
Proof.
  unfold flagged_positions.
  induction t as [|c t IH]; intros k; [reflexivity|].
  cbn [found_lines length seq combine filter snd]. rewrite IH.
  destruct (flagged c); reflexivity.
Qed.

(** X24: [analyze] prints its heading, then, in the order of the text, one
    "Found at position" line per character whose category is Cc, Cf or Cs,
    with its position, code point and name, and last the "nothing found"
    line exactly when there is no such character. *)
Theorem analyze_reports (text : str) :
  analyze text
  = analyze_header
      :: map (fun ic => found_line (fst ic) (snd ic))
             (filter (fun ic => flagged (snd ic))
                     (combine (seq 0 (length text)) text))
      ++ (if existsb flagged text then [] else [analyze_nothing_found])
  /\ length (analyze text)
     = S (Nat.max 1 (length (filter flagged text)))
  /\ (In analyze_nothing_found (analyze text)
      <-> Forall (fun c => flagged c = false) text).
Proof.
  split.
  { rewrite analyze_lines, found_lines_positions. reflexivity. }
  rewrite analyze_lines. split.
  - cbn [length]. rewrite length_app, found_lines_length.
    destruct (existsb flagged text) eqn:E.
    + apply existsb_exists in E. destruct E as (c & Hin & Hc).
      assert (Hf : In c (filter flagged text)) by (apply filter_In; auto).
      destruct (filter flagged text); [destruct Hf|]. cbn [length]. lia.
    + assert (Hnone : filter flagged text = []).
      { destruct (filter flagged text) as [|c l] eqn:Hf; [reflexivity|].
        assert (Hin : In c (filter flagged text))
          by (rewrite Hf; left; reflexivity).
        apply filter_In in Hin. destruct Hin as [Hin Hc].
        assert (existsb flagged text = true)
          by (apply existsb_exists; eauto).
        congruence. }
      rewrite Hnone. reflexivity.
  - split.
    + intros [Heq|Hin]; [discriminate Heq|].
      apply in_app_or in Hin. destruct Hin as [Hin|Hin].
      { exfalso. exact (found_lines_not_nothing _ _ Hin). }
      destruct (existsb flagged text) eqn:E; [destruct Hin|].
      apply Forall_forall. intros c Hc.
      destruct (flagged c) eqn:Hf; [|reflexivity].
      assert (existsb flagged text = true)
        by (apply existsb_exists; eauto).
      congruence.
    + intros Hall. right. apply in_or_app. right.
      destruct (existsb flagged text) eqn:E; [|left; reflexivity].
      apply existsb_exists in E. destruct E as (c & Hin & Hc).
      rewrite Forall_forall in Hall. specialize (Hall c Hin). congruence.
Qed.

(** X25: When the Unicode database gives every carrier character of a method
    one of the three categories, [analyze] never reports "nothing found"
    on an encoded text that carries something. *)
Theorem analyze_sees_carrier (v s m p r : str) :
  (forall c, carrier_of m c = true -> flagged c = true) ->
  hidden_encoding m s <> [] ->
  encode v s m p = Ok r ->
  ~ In analyze_nothing_found (analyze r).
Proof.
  intros Hcat Hne He Hin. apply encode_Ok in He.
  destruct He as (_ & _ & _ & _ & pos & _ & _ & ->).
  rewrite analyze_lines in Hin.
  destruct Hin as [Heq|Hin]; [discriminate Heq|].
  apply in_app_or in Hin. destruct Hin as [Hin|Hin].
  { exact (found_lines_not_nothing _ _ Hin). }
  pose proof (hidden_encoding_carrier m s) as Hc.
  destruct (hidden_encoding m s) as [|c0 h] eqn:Hh; [congruence|].
  inversion Hc as [|? ? Hc0 _]; subst.
  assert (E : existsb flagged (splice v (c0 :: h) (Z.to_nat pos)) = true).
  { apply existsb_exists. exists c0. split; [|auto].
    unfold splice. apply in_or_app. right. left. reflexivity. }
  rewrite E in Hin. destruct Hin.
Qed.

End Analysis.

Lemma analyze_sees_carrier_witness :
  ~ In analyze_nothing_found
       (analyze (fun c => if zw_carrier c then py "Cf" else py "Ll")
                (fun _ => None)
                (py "Hello world" ++ encode_zero_width (py "x") ++ [])).
Proof.
  apply (analyze_sees_carrier
           (fun c => if zw_carrier c then py "Cf" else py "Ll")
           (fun _ => None)
           (py "Hello world") (py "x") ZeroWidth End).
  - intros c Hc. rewrite carrier_of_ZeroWidth in Hc.
    unfold flagged. rewrite Hc. reflexivity.
  - discriminate.
  - reflexivity.
Defined.

(** * The warning of [encode] *)

(** [encode] together with what it prints.  Its only call to [print] is
    the warning of the Tag branch, whose message shows the list
    [non_ascii_chars]; the first component holds that list for each
    warning printed, the second is the value returned or the error. *)
Definition encode_printing
    (visible_text secret_message method injection_point : str)
  : list str * result str :=
  match visible_text with
  | [] => ([], Raise EmptyVisibleText)
  | _ =>
    if (MAX_VISIBLE_LENGTH <? len visible_text)%Z
    then ([], Raise VisibleTextTooLong)
    else if (MAX_SECRET_LENGTH <? len secret_message)%Z
    then ([], Raise SecretTooLong)
    else
      match find_injection_point visible_text injection_point with
      | Raise e => ([], Raise e)
      | Ok inject_pos =>
          if str_eqb method (py "zero-width") then
            ([], Ok (slice_to visible_text inject_pos
                     ++ encode_zero_width secret_message
                     ++ slice_from visible_text inject_pos))
          else if str_eqb method (py "tag") then
            (match non_ascii_chars secret_message with
             | [] => []
             | shown => [shown]
             end,
             Ok (slice_to visible_text inject_pos
                 ++ encode_tag secret_message
                 ++ slice_from visible_text inject_pos))
          else ([], Raise UnknownEncodingMethod)
      end
  end.

Lemma non_ascii_chars_filter (s : str) :
  non_ascii_chars s = filter (fun c => negb (is_ascii c)) s.
Proof.
  unfold non_ascii_chars. apply filter_ext. intros c.
  unfold is_ascii. apply N.ltb_antisym.
Qed.

(** X2: [encode] prints its warning only in a call with the method "tag"
    that succeeds, and then exactly when the secret has a character above
    0x7F; the list it shows holds those characters, in the order of the
    secret, which are the ones missing from the carrier.  Printing changes
    nothing in what is returned. *)
Theorem encode_warning (v s m p : str) :
  snd (encode_printing v s m p) = encode v s m p
  /\ fst (encode_printing v s m p)
     = match encode v s m p with
       | Ok _ =>
           if str_eqb m Tag then
             match filter (fun c => negb (is_ascii c)) s with
             | [] => []
             | shown => [shown]
             end
           else []
       | Raise _ => []
       end
  /\ decode_tag (encode_tag s) = filter is_ascii s
  /\ (length (encode_tag s)
      + length (filter (fun c => negb (is_ascii c)) s) = length s)%nat.
Proof.
  split; [|split; [|split]].
  - unfold encode_printing, encode.
    destruct v as [|c0 v0]; [reflexivity|].
    destruct (MAX_VISIBLE_LENGTH <? len (c0 :: v0))%Z; [reflexivity|].
    destruct (MAX_SECRET_LENGTH <? len s)%Z; [reflexivity|].
    destruct (find_injection_point (c0 :: v0) p); [|reflexivity].
    cbn [bind].
    destruct (str_eqb m (py "zero-width")); [reflexivity|].
    destruct (str_eqb m (py "tag")); reflexivity.
  - unfold encode_printing, encode, Tag.
    destruct v as [|c0 v0]; [reflexivity|].
    destruct (MAX_VISIBLE_LENGTH <? len (c0 :: v0))%Z; [reflexivity|].
    destruct (MAX_SECRET_LENGTH <? len s)%Z; [reflexivity|].
    destruct (find_injection_point (c0 :: v0) p); [|reflexivity].
    cbn [bind].
    destruct (str_eqb m (py "zero-width")) eqn:Ez.
    { apply str_eqb_eq in Ez. subst m. reflexivity. }
    destruct (str_eqb m (py "tag")); [|reflexivity].
    cbn [bind fst]. now rewrite non_ascii_chars_filter.
  - induction s as [|c s IH]; [reflexivity|].
    rewrite encode_tag_cons, decode_tag_app, IH. cbn [filter].
    destruct (is_ascii c) eqn:Hc; [|reflexivity].
    rewrite decode_tag_cons, (tag_carrier_of_ascii c Hc). cbn [app].
    f_equal. unfold TAG_BASE. lia.
  - rewrite <- non_ascii_chars_filter. apply encode_tag_skipped_count.
Qed.
